(** * Timeline synchronisation engine of the audiobook maker

    A shallow embedding of the timeline re-indexing transforms, the sentence
    merger, the leading-silence normaliser, the strict text normaliser and
    the edit coordinator of [app_genai_one_v4_fix.py].

    Times are Python floats in the source; here they are exact rationals
    ([Q]), so every comparison and every [+]/[-] is the exact one.  Text is a
    Python [str]: a sequence of Unicode code points.  The transforms are
    given twice: on values, as the function from the timeline read before
    the call to the timeline read after it, and on objects ([Obj]), with the
    dicts and lists of the source in a heap; [deletion_in_place] and
    [patch_in_place] relate the two.  The [wave] module, the splice engine
    and the speech service are parameters. *)

From Stdlib Require Import QArith Lqa Qround Ascii.
From Stdlib Require Import Strings.Byte.
From stdpp Require Import gmap list strings.

Open Scope Q_scope.

(** ** Numbers *)

(** Strict comparison [a < b] as a boolean. *)
Definition Qltb (a b : Q) : bool := negb (Qle_bool b a).

(** Python's [max(a, b)]: the first argument unless the second is greater. *)
Definition py_max (a b : Q) : Q := if Qltb a b then b else a.

(** Python's [int(x)] on a float: truncation towards zero. *)
Definition py_int (x : Q) : Z := if Qle_bool 0 x then Qfloor x else Qceiling x.

(** ** Text *)

Definition codepoint := N.
Definition pystr := list codepoint.

(** A literal of ASCII characters as a Python string. *)
Fixpoint pys (s : string) : pystr :=
  match s with
  | EmptyString => []
  | String c r => N_of_ascii c :: pys r
  end.

(** ** Text helpers of the Python runtime *)

Definition space : codepoint := 32%N.

Definition in_range (lo hi c : codepoint) : bool := (lo <=? c)%N && (c <=? hi)%N.
Arguments in_range (lo hi c)%_N.

(** [str.isspace] on one character, which is also what [\s] matches in a
    [str] pattern. *)
Definition py_isspace (c : codepoint) : bool :=
  in_range 0x09 0x0D c || in_range 0x1C 0x20 c
  || (c =? 0x85)%N || (c =? 0xA0)%N || (c =? 0x1680)%N
  || in_range 0x2000 0x200A c || (c =? 0x2028)%N || (c =? 0x2029)%N
  || (c =? 0x202F)%N || (c =? 0x205F)%N || (c =? 0x3000)%N.

Fixpoint lstrip (s : pystr) : pystr :=
  match s with
  | [] => []
  | c :: r => if py_isspace c then lstrip r else s
  end.

Definition rstrip (s : pystr) : pystr := reverse (lstrip (reverse s)).

(** [s.strip()] *)
Definition strip (s : pystr) : pystr := rstrip (lstrip s).

(** ** Timeline segments: the dicts [{'start': .., 'end': .., 'text': ..}] *)

Record segment := Segment { start : Q; end_ : Q; text : pystr }.

Definition set_start (v : Q) (item : segment) : segment :=
  {| start := v; end_ := end_ item; text := text item |}.
Definition set_end (v : Q) (item : segment) : segment :=
  {| start := start item; end_ := v; text := text item |}.
Definition set_text (v : pystr) (item : segment) : segment :=
  {| start := start item; end_ := end_ item; text := v |}.

Definition timeline := list segment.

(** Two segments carry the same values: equal times (as numbers) and the same
    text. *)
Definition seg_same (a b : segment) : Prop :=
  start a == start b /\ end_ a == end_ b /\ text a = text b.

Definition timeline_same (t1 t2 : timeline) : Prop := Forall2 seg_same t1 t2.

(** ** Invariants of the data model *)

(** A segment with no negative start and no inverted interval. *)
Definition seg_weak (s : segment) : Prop := 0 <= start s /\ start s <= end_ s.

(** A segment with no negative time. *)
Definition nonneg_times (s : segment) : Prop := 0 <= start s /\ 0 <= end_ s.

(** A segment as the data model wants it: [0 <= start < end]. *)
Definition seg_ok (s : segment) : Prop := 0 <= start s /\ start s < end_ s.

(** Consecutive segments do not overlap: each ends before the next starts. *)
Fixpoint non_overlap (tl : timeline) : Prop :=
  match tl with
  | a :: ((b :: _) as rest) => end_ a <= start b /\ non_overlap rest
  | _ => True
  end.

Definition timeline_inv (tl : timeline) : Prop := Forall seg_ok tl /\ non_overlap tl.

(** The same invariant as a checker. *)
Definition seg_okb (s : segment) : bool := Qle_bool 0 (start s) && Qltb (start s) (end_ s).

Fixpoint non_overlapb (tl : timeline) : bool :=
  match tl with
  | a :: ((b :: _) as rest) => Qle_bool (end_ a) (start b) && non_overlapb rest
  | _ => true
  end.

Definition timeline_invb (tl : timeline) : bool := forallb seg_okb tl && non_overlapb tl.

(** ** [adjust_timeline_for_deletion], on values

    The body of the [for item in timeline] loop: what the item appended to
    [new_timeline] holds. *)
Definition deletion_item (del_start del_end : Q) (item : segment) : segment :=
  let gap := del_end - del_start in
  if Qle_bool (end_ item) del_start then item
  else if Qle_bool (del_end - 0.05) (start item) then
    let item := set_start (py_max 0 (start item - gap)) item in
    set_end (py_max 0 (end_ item - gap)) item
  else set_end (py_max (start item) (end_ item - gap)) item.

Definition adjust_timeline_for_deletion (tl : timeline) (del_start del_end : Q) : timeline :=
  map (deletion_item del_start del_end) tl.

(** ** [adjust_timeline_for_patch], on values *)
Definition patch_item (target_start target_end new_duration : Q) (item : segment) : segment :=
  let old_duration := target_end - target_start in
  let diff := new_duration - old_duration in
  if Qle_bool (target_end - 0.1) (start item) then
    let item := set_start (start item + diff) item in
    set_end (end_ item + diff) item
  else if Qltb target_start (end_ item) && Qltb (start item) target_end then
    set_end (end_ item + diff) item
  else item.

Definition adjust_timeline_for_patch (tl : timeline)
    (target_start target_end new_duration : Q) : timeline :=
  map (patch_item target_start target_end new_duration) tl.

(** The timeline A/B/C of the scenarios. *)
Definition abc : timeline :=
  [ Segment 0 5 (pys "A"); Segment 5 10 (pys "B"); Segment 10 15 (pys "C") ].

(** A timeline with a sentence lying wholly inside the first five seconds. *)
Definition intro_timeline : timeline :=
  [ Segment 0 3 (pys "A"); Segment 3 5 (pys "B"); Segment 5 10 (pys "C") ].



(** The two loop bodies with the value the program has for the tolerance
    threshold in place of the exact difference; at the exact difference they
    are [deletion_item] and [patch_item]. *)
Definition deletion_item_at (threshold del_start del_end : Q) (item : segment)
    : segment :=
  let gap := del_end - del_start in
  if Qle_bool (end_ item) del_start then item
  else if Qle_bool threshold (start item) then
    let item := set_start (py_max 0 (start item - gap)) item in
    set_end (py_max 0 (end_ item - gap)) item
  else set_end (py_max (start item) (end_ item - gap)) item.

Definition patch_item_at (threshold target_start target_end new_duration : Q)
    (item : segment) : segment :=
  let old_duration := target_end - target_start in
  let diff := new_duration - old_duration in
  if Qle_bool threshold (start item) then
    let item := set_start (start item + diff) item in
    set_end (end_ item + diff) item
  else if Qltb target_start (end_ item) && Qltb (start item) target_end then
    set_end (end_ item + diff) item
  else item.



(** ** The transforms on objects

    The source works on a Python list of dict objects and assigns to the
    dicts' keys.  Objects live in a heap and are named by their identity; a
    timeline is a list object holding the identities of its segment dicts. *)

Module Obj.

Definition loc := positive.

Record heap := Heap {
  dicts : gmap loc segment;      (* the segment dicts, by identity *)
  lists : gmap loc (list loc)    (* the list objects, by identity *)
}.

(** An assignment [item[k] = v] to a key of the dict object [r]. *)
Definition store (upd : segment -> segment) (r : loc)
    (d : gmap loc segment) : gmap loc segment :=
  alter upd r d.

(** The values a list object holds, read through the heap. *)
Definition read_timeline (h : heap) (tl : loc) : option timeline :=
  refs ← lists h !! tl; mapM (fun r => dicts h !! r) refs.

(** The [for item in timeline] loop of [adjust_timeline_for_deletion]:
    [new_timeline] grows by the identity of each item visited. *)
Fixpoint deletion_loop (del_start del_end : Q) (items : list loc)
    (d : gmap loc segment) (new_timeline : list loc)
    : option (gmap loc segment * list loc) :=
  match items with
  | [] => Some (d, new_timeline)
  | r :: rest =>
      let gap := del_end - del_start in
      item ← d !! r;
      if Qle_bool (end_ item) del_start then
        deletion_loop del_start del_end rest d (new_timeline ++ [r])
      else if Qle_bool (del_end - 0.05) (start item) then
        let d1 := store (set_start (py_max 0 (start item - gap))) r d in
        item1 ← d1 !! r;
        let d2 := store (set_end (py_max 0 (end_ item1 - gap))) r d1 in
        deletion_loop del_start del_end rest d2 (new_timeline ++ [r])
      else
        let d1 := store (set_end (py_max (start item) (end_ item - gap))) r d in
        deletion_loop del_start del_end rest d1 (new_timeline ++ [r])
  end.

(** [adjust_timeline_for_deletion]: a new list object is allocated for
    [new_timeline] and returned.  The result is [None] only when an identity
    names no object of the heap, which a running program never meets. *)
Definition adjust_timeline_for_deletion (h : heap) (tl : loc) (del_start del_end : Q)
    : option (heap * loc) :=
  items ← lists h !! tl;
  let new_timeline := fresh (dom (lists h)) in
  '(d, out) ← deletion_loop del_start del_end items (dicts h) [];
  Some (Heap d (<[new_timeline := out]> (lists h)), new_timeline).

(** The [for item in timeline] loop of [adjust_timeline_for_patch]. *)
Fixpoint patch_loop (target_start target_end new_duration : Q) (items : list loc)
    (d : gmap loc segment) : option (gmap loc segment) :=
  match items with
  | [] => Some d
  | r :: rest =>
      let old_duration := target_end - target_start in
      let diff := new_duration - old_duration in
      item ← d !! r;
      if Qle_bool (target_end - 0.1) (start item) then
        let d1 := store (set_start (start item + diff)) r d in
        item1 ← d1 !! r;
        let d2 := store (set_end (end_ item1 + diff)) r d1 in
        patch_loop target_start target_end new_duration rest d2
      else if Qltb target_start (end_ item) && Qltb (start item) target_end then
        let d1 := store (set_end (end_ item + diff)) r d in
        patch_loop target_start target_end new_duration rest d1
      else patch_loop target_start target_end new_duration rest d
  end.

(** [adjust_timeline_for_patch]: [return timeline], the list it was given. *)
Definition adjust_timeline_for_patch (h : heap) (tl : loc)
    (target_start target_end new_duration : Q) : option (heap * loc) :=
  items ← lists h !! tl;
  d ← patch_loop target_start target_end new_duration items (dicts h);
  Some (Heap d (lists h), tl).

(** The timeline A/B/C as three dicts held by the list object 1. *)
Definition abc_heap : heap :=
  Heap (<[1%positive := Segment 0 5 (pys "A")]>
          (<[2%positive := Segment 5 10 (pys "B")]>
             (<[3%positive := Segment 10 15 (pys "C")]> ∅)))
       (<[1%positive := [1%positive; 2%positive; 3%positive]]> ∅).

End Obj.

(** What a loop that rewrites each visited dict by [f] leaves in the heap. *)
Definition rewritten (f : segment -> segment) (items : list Obj.loc)
    (d d' : gmap Obj.loc segment) : Prop :=
  (forall r, r ∉ items -> d' !! r = d !! r)
  /\ (NoDup items -> forall r, r ∈ items -> d' !! r = f <$> d !! r).

(** ** [normalize_text_strict] *)

(** The character class [가-힣a-zA-Z0-9]. *)
Definition allowed (c : codepoint) : bool :=
  in_range 0xAC00 0xD7A3 c          (* 가-힣 *)
  || in_range 0x61 0x7A c           (* a-z *)
  || in_range 0x41 0x5A c           (* A-Z *)
  || in_range 0x30 0x39 c.          (* 0-9 *)

(** [re.sub(r'[^가-힣a-zA-Z0-9]', ' ', text)] *)
Definition sub_not_allowed (s : pystr) : pystr :=
  map (fun c => if allowed c then c else space) s.

(** [re.sub(r'\s+', ' ', text)]: each maximal run of whitespace becomes one
    space.  [in_run] says that the previous character belonged to a run whose
    space is already written. *)
Fixpoint sub_runs (in_run : bool) (s : pystr) : pystr :=
  match s with
  | [] => []
  | c :: r =>
      if py_isspace c then
        if in_run then sub_runs true r else space :: sub_runs true r
      else c :: sub_runs false r
  end.

Definition sub_whitespace (s : pystr) : pystr := sub_runs false s.

Definition normalize_text_strict (text : pystr) : pystr :=
  let text := sub_not_allowed text in
  strip (sub_whitespace text).

(** A Hangul syllable, an ASCII letter or a digit, or the space. *)
Definition word_char (c : codepoint) : Prop := allowed c = true \/ c = space.

(** No two spaces in a row. *)
Fixpoint single_spaced (s : pystr) : Prop :=
  match s with
  | a :: ((b :: _) as r) => ~ (a = space /\ b = space) /\ single_spaced r
  | _ => True
  end.

(** No whitespace at the front or at the back. *)
Definition no_outer_whitespace (s : pystr) : Prop :=
  (forall c, head s = Some c -> py_isspace c = false)
  /\ (forall c, last s = Some c -> py_isspace c = false).

(** The shape of a normalised text: words of allowed characters with one
    space between them and no whitespace at either end. *)
Definition canonical (s : pystr) : Prop :=
  Forall word_char s /\ single_spaced s /\ no_outer_whitespace s.

(** ** The sentence merger of [get_transcription_with_timestamps] *)

(** [current_text and current_text[-1] in ['.', '?', '!']] *)
Definition ends_sentence (current_text : pystr) : bool :=
  match last current_text with
  | Some c => (c =? 46)%N || (c =? 63)%N || (c =? 33)%N
  | None => false
  end.

(** The loop over [raw_data], with [buffer] and [merged_data] as they stand
    before the fragments still to be visited; at the end of the list the
    pending buffer is appended. *)
Fixpoint merge_loop (real_duration : Q) (raw_data : list segment)
    (buffer : option segment) (merged_data : list segment) : list segment :=
  match raw_data with
  | [] =>
      match buffer with
      | Some b => merged_data ++ [b]
      | None => merged_data
      end
  | item :: rest =>
      if Qle_bool (end_ item) (start item) then
        merge_loop real_duration rest buffer merged_data
      else if Qle_bool real_duration (start item) then
        merge_loop real_duration rest buffer merged_data
      else
        let item :=
          if Qltb real_duration (end_ item) then set_end real_duration item else item in
        let buffer :=
          match buffer with
          | None => item
          | Some b =>
              let b := set_text (strip (text b) ++ [space] ++ strip (text item)) b in
              set_end (end_ item) b
          end in
        let current_text := strip (text buffer) in
        if ends_sentence current_text then
          merge_loop real_duration rest None (merged_data ++ [buffer])
        else merge_loop real_duration rest (Some buffer) merged_data
  end.

(** The merger: the fragments parsed from the transcription and the measured
    duration of the audio give the timeline. *)
Definition merge_fragments (raw_data : list segment) (real_duration : Q) : timeline :=
  merge_loop real_duration raw_data None [].

(** The fragments start in time order. *)
Fixpoint starts_ascending (raw_data : list segment) : Prop :=
  match raw_data with
  | a :: ((b :: _) as r) => start a <= start b /\ starts_ascending r
  | _ => True
  end.

(** What lies ahead of the loop starts no earlier than [x]. *)
Definition starts_from (x : Q) (raw : list segment) : Prop :=
  match raw with
  | item :: _ => x <= start item
  | [] => True
  end.

(** ** Audio payloads *)

Definition bytes := list byte.

(** [b'RIFF'] *)
Definition RIFF : bytes := [x52; x49; x46; x46].

(** [data.startswith(prefix)] *)
Fixpoint startswith (data prefix : bytes) : bool :=
  match prefix, data with
  | [], _ => true
  | p :: prefix', c :: data' => Byte.eqb c p && startswith data' prefix'
  | _ :: _, [] => false
  end.

(** Truth value of a Python object that is [None] or a [bytes]. *)
Definition truthy (o : option bytes) : bool :=
  match o with
  | Some (_ :: _) => true
  | _ => false
  end.

(** What opening a payload with the [wave] module and reading it gives: the
    header's parameters and the frame data, or an exception. *)
Inductive wave_read_result :=
| WaveParsed (nchannels sampwidth framerate nframes : Z) (frames : bytes)
| WaveError          (* [wave.Error] *)
| WaveOtherError.    (* any other exception *)

Section Normaliser.

(** The [wave] module of the Python library: reading a container, and
    writing one with the given parameters ([None] when it raises). *)
Variable wave_read : bytes -> wave_read_result.
Variable wave_write : Z -> Z -> Z -> bytes -> option bytes.

(** Steps 3 to 5 of [add_silence_padding]: the silence, then the data, in a
    new container. *)
Definition pad_and_wrap (CHANNELS SAMPWIDTH FRAMERATE : Z) (raw_data : bytes)
    (duration_sec : Q) : option bytes :=
  let num_silent_frames := py_int (inject_Z FRAMERATE * duration_sec) in
  let silent_data := repeat x00 (Z.to_nat (num_silent_frames * CHANNELS * SAMPWIDTH)) in
  let final_data := silent_data ++ raw_data in
  wave_write CHANNELS SAMPWIDTH FRAMERATE final_data.

(** [add_silence_padding]; [None] is the error value. *)
Definition add_silence_padding (audio_bytes : option bytes) (duration_sec : Q)
    : option bytes :=
  match audio_bytes with
  | None => None
  | Some audio_bytes =>
      if negb (truthy (Some audio_bytes)) || (length audio_bytes <? 100)%nat then None
      else
        let CHANNELS := 1%Z in
        let SAMPWIDTH := 2%Z in
        let FRAMERATE := 24000%Z in
        let raw_data := audio_bytes in
        if startswith audio_bytes RIFF then
          match wave_read audio_bytes with
          | WaveParsed nchannels sampwidth framerate _ frames =>
              pad_and_wrap nchannels sampwidth framerate frames duration_sec
          | WaveError =>
              pad_and_wrap CHANNELS SAMPWIDTH FRAMERATE raw_data duration_sec
          | WaveOtherError => None
          end
        else pad_and_wrap CHANNELS SAMPWIDTH FRAMERATE raw_data duration_sec
  end.

End Normaliser.

(** ** The edit coordinator: the two buttons of the editor *)

(** What the coordinator owns: the audio file of the chapter (when it
    exists) and the timeline kept in the session (when it was built). *)
Record session := Session {
  audio_file : option bytes;
  session_timeline : option timeline
}.

(** What a run of a button did, in order. *)
Inductive event :=
| AudioWritten (b : bytes)
| TimelineAdjusted (tl : timeline).

Section Coordinator.

Variable wave_read : bytes -> wave_read_result.
Variable wave_write : Z -> Z -> Z -> bytes -> option bytes.

(** The splice engine and the speech service. *)
Variable delete_audio_range : bytes -> Q -> Q -> option bytes.
Variable patch_audio_segment : bytes -> bytes -> Q -> Q -> option bytes.
Variable generate_speech : pystr -> option bytes.

(** The button that deletes a range. *)
Definition delete_button (s : session) (del_start del_end : Q) : session * list event :=
  match audio_file s with
  | None => (s, [])
  | Some original_bytes =>
      match delete_audio_range original_bytes del_start del_end with
      | Some ((_ :: _) as new_audio_bytes) =>
          let s1 := Session (Some new_audio_bytes) (session_timeline s) in
          match session_timeline s1 with
          | Some old_timeline =>
              let new_timeline :=
                adjust_timeline_for_deletion old_timeline del_start del_end in
              (Session (audio_file s1) (Some new_timeline),
               [AudioWritten new_audio_bytes; TimelineAdjusted new_timeline])
          | None => (s1, [AudioWritten new_audio_bytes])
          end
      | _ => (s, [])
      end
  end.

(** The length in seconds of a container, as the patch button measures it;
    [None] when measuring raises. *)
Definition measure_duration (new_part : bytes) : option Q :=
  match wave_read new_part with
  | WaveParsed _ _ rate frames _ =>
      if (rate =? 0)%Z then None else Some (inject_Z frames / inject_Z rate)
  | _ => None
  end.

(** The button that records a sentence again and writes it over the old one. *)
Definition patch_button (s : session) (patch_text : pystr) (start_time end_time : Q)
    : session * list event :=
  if bool_decide (strip patch_text = []) then (s, [])
  else
    let raw_audio := generate_speech patch_text in
    let new_part := add_silence_padding wave_read wave_write raw_audio 0.1 in
    match new_part, audio_file s with
    | Some ((_ :: _) as new_part), Some orig =>
        match measure_duration new_part with
        | None => (s, [])
        | Some new_duration =>
            match patch_audio_segment orig new_part start_time end_time with
            | Some ((_ :: _) as patched) =>
                let s1 := Session (Some patched) (session_timeline s) in
                match session_timeline s1 with
                | Some old_timeline =>
                    let new_timeline :=
                      adjust_timeline_for_patch old_timeline start_time end_time
                        new_duration in
                    (Session (audio_file s1) (Some new_timeline),
                     [AudioWritten patched; TimelineAdjusted new_timeline])
                | None => (s1, [AudioWritten patched])
                end
            | _ => (s, [])
            end
        end
    | _, _ => (s, [])
    end.

End Coordinator.

(** Audio and timeline committed together: the file holds the spliced audio,
    the session holds the adjusted timeline when it held one, and the
    timeline was adjusted after the audio was written. *)
Definition committed_together (s s' : session) (tr : list event)
    (new_audio : bytes) (adjust : timeline -> timeline) : Prop :=
  audio_file s' = Some new_audio
  /\ session_timeline s' = adjust <$> session_timeline s
  /\ tr = AudioWritten new_audio
          :: match session_timeline s with
             | Some tl => [TimelineAdjusted (adjust tl)]
             | None => []
             end.

(** ** Stand-ins for the collaborators, to run the model on examples *)

(** A reader that rejects every payload, one that takes every payload as
    mono 16-bit frames at 24000 Hz, and a writer that adds no header. *)
Definition rejecting_reader (b : bytes) : wave_read_result := WaveError.
Definition raw_reader (b : bytes) : wave_read_result :=
  WaveParsed 1 2 24000 (Z.of_nat (length b) / 2) b.
Definition bare_writer (nchannels sampwidth framerate : Z) (data : bytes) : option bytes :=
  Some data.

(** A container of a hundred bytes with a malformed header: the signature,
    the size, [WAVE], and a [fmt ] chunk of four bytes where the format
    wants sixteen.  The wave module meets the end of the chunk while it
    reads the format and raises [EOFError], which is no [wave.Error]; the
    reader that stands for it on this payload says so. *)
Definition short_fmt_container : bytes :=
  RIFF ++ [x5c; x00; x00; x00] ++ [x57; x41; x56; x45]
  ++ [x66; x6d; x74; x20] ++ [x04; x00; x00; x00] ++ repeat x00 80.
Definition eof_reader (b : bytes) : wave_read_result := WaveOtherError.

(** A splice engine that always fails, and one that always succeeds. *)
Definition failing_delete (original : bytes) (start_sec end_sec : Q) : option bytes := None.
Definition working_delete (original : bytes) (start_sec end_sec : Q) : option bytes :=
  Some (x02 :: original).
Definition failing_patch (original new_part : bytes) (start_sec end_sec : Q)
    : option bytes := None.
Definition working_patch (original new_part : bytes) (start_sec end_sec : Q)
    : option bytes := Some (original ++ new_part).

(** A speech service that answers with a hundred bytes of raw samples. *)
Definition raw_speech (text : pystr) : option bytes := Some (repeat x01 100).

(** A session with a one-byte audio file and the timeline A/B/C. *)
Definition abc_session : session := Session (Some [x07]) (Some abc).

(** ** More on the timeline: how far an edit moves a segment *)



(** ** More on the merger *)

(** The two tests a fragment passes to be merged: it starts before it ends,
    and before the end of the audio. *)
Definition fragment_kept (real_duration : Q) (item : segment) : bool :=
  negb (Qle_bool (end_ item) (start item)) && negb (Qle_bool real_duration (start item)).

(** [" ".join(texts)] *)
Fixpoint join_sp (texts : list pystr) : pystr :=
  match texts with
  | [] => []
  | t :: rest =>
      match rest with
      | [] => t
      | _ :: _ => t ++ [space] ++ join_sp rest
      end
  end.

(** A text with something in it and no whitespace at either end. *)
Definition trimmed_text (t : pystr) : Prop := t <> [] /\ no_outer_whitespace t.

(** A fragment that is a sentence of its own and lies within the audio. *)
Definition whole_sentence (real_duration : Q) (s : segment) : Prop :=
  start s < end_ s /\ end_ s <= real_duration /\ ends_sentence (strip (text s)) = true.

(** The ordering invariant read along the list: every segment starts at or
    after [lo] and before its own end, and the rest goes on from its end. *)
Fixpoint chain_from (lo : Q) (tl : timeline) : Prop :=
  match tl with
  | [] => True
  | s :: rest => lo <= start s /\ start s < end_ s /\ chain_from (end_ s) rest
  end.

(** ** More on the normaliser *)

(** The Hangul syllables, letters and digits of a text, in order. *)
Definition letters (s : pystr) : pystr :=
  @filter N (list N) _ (fun c => allowed c = true) _ s.

(** ** Text tools of the Python runtime, continued *)

(** [s.startswith(p)] on texts. *)
Fixpoint is_prefix (p s : pystr) : bool :=
  match p, s with
  | [], _ => true
  | a :: p', b :: s' => (a =? b)%N && is_prefix p' s'
  | _ :: _, [] => false
  end.

(** [s.replace(old, new)] for a non-empty [old]: the occurrences of [old]
    are found from the left and do not overlap.  [skip] counts the characters
    of a found occurrence that are still to be passed over. *)
Fixpoint replace_go (old new : pystr) (skip : nat) (s : pystr) : pystr :=
  match s with
  | [] => []
  | c :: r =>
      match skip with
      | S k => replace_go old new k r
      | O =>
          if is_prefix old s then new ++ replace_go old new (length old - 1) r
          else c :: replace_go old new 0 r
      end
  end.

Definition py_replace (old new s : pystr) : pystr := replace_go old new 0 s.

(** [re.sub(r'[...]', '', s)] for a character class: the characters of the
    class are left out. *)
Definition remove_chars (cls : codepoint -> bool) (s : pystr) : pystr :=
  List.filter (fun c => negb (cls c)) s.

(** The substitution of a bracket, any characters but the closing bracket,
    and the closing bracket, by nothing (for round brackets the pattern is a
    backslashed opening bracket, the negated class of the closing bracket
    starred, and a backslashed closing bracket): from an
    opening bracket to the first closing bracket after it, all is left out;
    an opening bracket with no closing bracket after it stays.  [inside] says
    that an opening bracket was met whose closing bracket lies ahead. *)
Fixpoint remove_groups_go (op cl : codepoint) (inside : bool) (s : pystr) : pystr :=
  match s with
  | [] => []
  | c :: r =>
      if inside then
        if (c =? cl)%N then remove_groups_go op cl false r
        else remove_groups_go op cl true r
      else if (c =? op)%N && existsb (N.eqb cl) r then remove_groups_go op cl true r
      else c :: remove_groups_go op cl false r
  end.

Definition remove_groups (op cl : codepoint) (s : pystr) : pystr :=
  remove_groups_go op cl false s.
Arguments remove_groups (op cl)%_N s.

(** One of [.], [?], [!]. *)
Definition is_terminator (c : codepoint) : bool :=
  (c =? 46)%N || (c =? 63)%N || (c =? 33)%N.

(** [re.split(r'(?<=[.?!])\s+', s)]: the text is cut at every run of
    whitespace that follows a terminator, and the run is left out.  The head
    of the result is what is left of the piece being read; [prev_term] says
    that the previous character is a terminator of that piece, [in_sep] that
    it belongs to a run being left out. *)
Fixpoint split_go (prev_term in_sep : bool) (s : pystr) : list pystr :=
  match s with
  | [] => [[]]
  | c :: r =>
      if py_isspace c && in_sep then split_go false true r
      else if py_isspace c && prev_term then [] :: split_go false true r
      else
        match split_go (is_terminator c) false r with
        | piece :: pieces => (c :: piece) :: pieces
        | [] => [[c]]
        end
  end.

Definition split_sentences (s : pystr) : list pystr := split_go false false s.

(** ** [sanitize_filename] *)

(** The class of [sanitize_filename]: backslash, slash, star, question mark,
    colon, double quote, angle brackets and bar. *)
Definition filename_forbidden (c : codepoint) : bool :=
  (c =? 92)%N || (c =? 47)%N || (c =? 42)%N || (c =? 63)%N || (c =? 58)%N
  || (c =? 34)%N || (c =? 60)%N || (c =? 62)%N || (c =? 124)%N.

Definition underscore : codepoint := 95%N.

Definition sanitize_filename (name : pystr) : pystr :=
  let name := remove_chars filename_forbidden name in
  let name := py_replace [space] [underscore] name in
  take 50 (strip name).

(** ** [process_text_for_playground] *)

(** The class of star, hash and at sign. *)
Definition markup_char (c : codepoint) : bool :=
  (c =? 42)%N || (c =? 35)%N || (c =? 64)%N.

(** Steps 1 and 2: brackets with what they hold, line breaks, ellipses and
    markup characters go, whitespace is collapsed. *)
Definition clean_text (text : pystr) : pystr :=
  let text := remove_groups 40 41 text in      (* ( ) *)
  let text := remove_groups 91 93 text in      (* [ ] *)
  let text := remove_groups 123 125 text in    (* { } *)
  let text := remove_groups 60 62 text in      (* < > *)
  let text := py_replace [10%N] [space] text in
  let text := py_replace [0x2026%N] [44%N]
                (py_replace [46%N; 46%N; 46%N] [44%N] text) in
  let text := remove_chars markup_char text in
  strip (sub_whitespace text).

(** [if current_chunk: chunks.append(current_chunk.strip())] *)
Definition flush_chunk (current_chunk : pystr) (chunks : list pystr) : list pystr :=
  match current_chunk with
  | [] => chunks
  | _ :: _ => chunks ++ [strip current_chunk]
  end.

(** Step 3, the loop over the sentences, with [current_chunk] and [chunks] as
    they stand; at the end the pending chunk is appended. *)
Fixpoint chunk_loop (max_chars : nat) (sentences : list pystr)
    (current_chunk : pystr) (chunks : list pystr) : list pystr :=
  match sentences with
  | [] => flush_chunk current_chunk chunks
  | sentence :: rest =>
      match sentence with
      | [] => chunk_loop max_chars rest current_chunk chunks
      | _ :: _ =>
          if (max_chars <? length current_chunk + length sentence)%nat then
            chunk_loop max_chars rest sentence (flush_chunk current_chunk chunks)
          else
            match current_chunk with
            | [] => chunk_loop max_chars rest sentence chunks
            | _ :: _ =>
                chunk_loop max_chars rest (current_chunk ++ [space] ++ sentence) chunks
            end
      end
  end.

Definition chunk_sentences (max_chars : nat) (sentences : list pystr) : list pystr :=
  chunk_loop max_chars sentences [] [].

Definition process_text_for_playground (text : pystr) (max_chars : nat) : list pystr :=
  chunk_sentences max_chars (split_sentences (clean_text text)).

(** A file name with nothing for [sanitize_filename] to change in it. *)
Definition filename_char (c : codepoint) : Prop :=
  filename_forbidden c = false /\ c <> space.

(** A whitespace character is the space itself. *)
Definition ws_is_space (c : codepoint) : Prop := py_isspace c = true -> c = space.

(** A text in which all whitespace is single spaces between words. *)
Definition tidy (s : pystr) : Prop :=
  Forall ws_is_space s /\ single_spaced s /\ no_outer_whitespace s.

(** What is left of a tidy text, from some character on. *)
Definition tidy_rest (s : pystr) : Prop :=
  Forall ws_is_space s /\ single_spaced s
  /\ (forall c, last s = Some c -> py_isspace c = false).

(** The chunk being filled, as a list of at most one text. *)
Definition pending (current : pystr) : list pystr :=
  match current with
  | [] => []
  | _ :: _ => [current]
  end.

(** Neither a markup character nor the ellipsis character. *)
Definition plain_char (c : codepoint) : Prop :=
  markup_char c = false /\ c <> 0x2026%N.

(** ** The text of the JSON list in a transcription answer *)

(** [s.find(c)]: the index of the first [c]; [None] stands for -1. *)
Fixpoint find_char (c : codepoint) (s : pystr) : option nat :=
  match s with
  | [] => None
  | x :: r => if (x =? c)%N then Some 0%nat else S <$> find_char c r
  end.

(** [s.rfind(c)]: the index of the last [c]; [None] stands for -1. *)
Fixpoint rfind_char (c : codepoint) (s : pystr) : option nat :=
  match s with
  | [] => None
  | x :: r =>
      match rfind_char c r with
      | Some i => Some (S i)
      | None => if (x =? c)%N then Some 0%nat else None
      end
  end.

(** [s[i:j]] for indices that are not negative. *)
Definition slice (s : pystr) (i j : nat) : pystr := take (j - i) (drop i s).

(** From the first opening square bracket to the last closing one;
    [None] where the source gives up and returns the empty timeline. *)
Definition json_list_text (raw_text : pystr) : option pystr :=
  let start_idx := find_char 91%N raw_text in
  let end_idx := rfind_char 93%N raw_text in
  match start_idx, end_idx with
  | Some start_idx, Some end_idx => Some (slice raw_text start_idx (end_idx + 1))
  | _, _ => None
  end.

(** ** The splice engine, over the audio library *)

(** What the source uses of [pydub]: an [AudioSegment] read from a
    container, its length in milliseconds, its slices by milliseconds,
    joining with and without a crossfade, fades, and writing a container.
    An operation that can raise gives [None] when it does. *)
Class Pydub := {
  AudioSegment : Type;
  from_wav : bytes -> option AudioSegment;
  len_ms : AudioSegment -> Z;
  slice_to : AudioSegment -> Z -> AudioSegment;        (* [seg[:ms]] *)
  slice_from : AudioSegment -> Z -> AudioSegment;      (* [seg[ms:]] *)
  append_crossfade : AudioSegment -> AudioSegment -> Z -> option AudioSegment;
  concat : AudioSegment -> AudioSegment -> AudioSegment;
  fade_in : AudioSegment -> Z -> AudioSegment;
  fade_out : AudioSegment -> Z -> AudioSegment;
  export_wav : AudioSegment -> option bytes
}.

Section SpliceEngine.

Context {pydub : Pydub}.

(** [delete_audio_range]; every exception ends in [return None]. *)
Definition delete_audio_range (original_wav_bytes : bytes) (start_sec end_sec : Q)
    : option bytes :=
  if negb (truthy (Some original_wav_bytes)) then None
  else
    match from_wav original_wav_bytes with
    | None => None
    | Some original =>
        let start_ms := py_int (start_sec * 1000) in
        let end_ms := py_int (end_sec * 1000) in
        let start_ms := if (start_ms <? 0)%Z then 0%Z else start_ms in
        let end_ms := if (len_ms original <? end_ms)%Z then len_ms original else end_ms in
        if (end_ms <=? start_ms)%Z then None
        else
          let part_front := slice_to original start_ms in
          let part_back := slice_from original end_ms in
          match append_crossfade part_front part_back 20 with
          | None => None
          | Some final_audio => export_wav final_audio
          end
    end.

(** [patch_audio_segment] *)
Definition patch_audio_segment (original_wav_bytes new_wav_bytes : bytes)
    (start_sec end_sec : Q) : option bytes :=
  if negb (truthy (Some original_wav_bytes)) || (length original_wav_bytes <? 100)%nat
  then None
  else if negb (truthy (Some new_wav_bytes)) || (length new_wav_bytes <? 100)%nat
  then None
  else if negb (startswith original_wav_bytes RIFF) then None
  else if negb (startswith new_wav_bytes RIFF) then None
  else
    match from_wav original_wav_bytes with
    | None => None
    | Some original =>
        match from_wav new_wav_bytes with
        | None => None
        | Some replacement =>
            let start_ms := py_int (start_sec * 1000) in
            let end_ms := py_int (end_sec * 1000) in
            let start_ms := if (start_ms <? 0)%Z then 0%Z else start_ms in
            let end_ms :=
              if (len_ms original <? end_ms)%Z then len_ms original else end_ms in
            let part_a := slice_to original start_ms in
            let part_c := slice_from original end_ms in
            let fade_duration := 50%Z in
            let final_audio :=
              if (len_ms replacement <? fade_duration * 2)%Z then
                concat (concat part_a replacement) part_c
              else
                concat (concat (fade_out part_a fade_duration)
                          (fade_out (fade_in replacement fade_duration) fade_duration))
                  (fade_in part_c fade_duration) in
            export_wav final_audio
        end
    end.

End SpliceEngine.

(** ** The batch of the second tab *)

(** The audio file that goes with a script file:
    [txt_file.replace("script_", "audio_").replace(ext, ".wav")]. *)
Definition audio_name_of (ext : pystr) (script_file : pystr) : pystr :=
  py_replace ext (pys ".wav") (py_replace (pys "script_") (pys "audio_") script_file).

Section Batch.

Variable wave_read : bytes -> wave_read_result.
Variable wave_write : Z -> Z -> Z -> bytes -> option bytes.
Variable generate_speech : pystr -> option bytes.

(** [load_text_file] on the script folder. *)
Variable load_text_file : pystr -> pystr.

(** The loop over [target_files]; the audio folder maps a file name to what
    the file holds.  A script whose speech is not generated ends the loop; a
    script whose padding fails is passed over. *)
Fixpoint batch_loop (target_files : list pystr) (audio_dir : gmap pystr bytes)
    : gmap pystr bytes :=
  match target_files with
  | [] => audio_dir
  | txt_file :: rest =>
      let text_content := load_text_file txt_file in
      match generate_speech text_content with
      | Some ((_ :: _) as audio_bytes) =>
          match add_silence_padding wave_read wave_write (Some audio_bytes) 0.5 with
          | Some ((_ :: _) as final_audio) =>
              let save_name := audio_name_of (pys ".txt") txt_file in
              batch_loop rest (<[save_name := final_audio]> audio_dir)
          | _ => batch_loop rest audio_dir
          end
      | _ => audio_dir
      end
  end.

End Batch.

(** A stand-in for the audio library: an audio is its list of samples, one
    per millisecond, and a container is the samples themselves. *)
#[local] Instance list_pydub : Pydub := {|
  AudioSegment := bytes;
  from_wav := fun b => Some b;
  len_ms := fun a => Z.of_nat (length a);
  slice_to := fun a ms => take (Z.to_nat ms) a;
  slice_from := fun a ms => drop (Z.to_nat ms) a;
  append_crossfade := fun a b _ => Some (a ++ b);
  concat := fun a b => a ++ b;
  fade_in := fun a _ => a;
  fade_out := fun a _ => a;
  export_wav := fun a => Some a
|}.

(** A speech service that knows one text only. *)
Definition one_text_speech (text : pystr) : option bytes :=
  if bool_decide (text = pys "a") then Some (repeat x01 100) else None.

(** * Proofs *)

(** ** Basic facts on the numeric helpers *)

Lemma Qltb_lt (a b : Q) : Qltb a b = true <-> a < b.
Proof.
  unfold Qltb. rewrite negb_true_iff, <- not_true_iff_false, Qle_bool_iff.
  split; [apply Qnot_le_lt | apply Qlt_not_le].
Qed.

Lemma Qltb_ge (a b : Q) : Qltb a b = false <-> b <= a.
Proof. unfold Qltb. rewrite negb_false_iff. apply Qle_bool_iff. Qed.

Lemma Qle_bool_gt (a b : Q) : Qle_bool a b = false <-> b < a.
Proof.
  rewrite <- not_true_iff_false, Qle_bool_iff.
  split; [apply Qnot_le_lt | apply Qlt_not_le].
Qed.

(** Case analysis on every comparison the code makes, leaving the facts as
    hypotheses on rationals. *)
Ltac qcmp :=
  repeat match goal with
  | H : Qle_bool _ _ = true |- _ => apply Qle_bool_iff in H
  | H : Qle_bool _ _ = false |- _ => apply Qle_bool_gt in H
  | H : Qltb _ _ = true |- _ => apply Qltb_lt in H
  | H : Qltb _ _ = false |- _ => apply Qltb_ge in H
  | H : _ && _ = true |- _ => apply andb_true_iff in H; destruct H
  | |- context [Qle_bool ?a ?b] => destruct (Qle_bool a b) eqn:?
  | |- context [Qltb ?a ?b] => destruct (Qltb a b) eqn:?
  end.

Lemma py_max_l (a b : Q) : a <= py_max a b.
Proof. unfold py_max. qcmp; lra. Qed.

Lemma py_max_mono (a b b' : Q) : b <= b' -> py_max a b <= py_max a b'.
Proof. unfold py_max. intros. qcmp; lra. Qed.

Lemma seg_okb_ok (s : segment) : seg_okb s = true <-> seg_ok s.
Proof.
  unfold seg_okb, seg_ok. rewrite andb_true_iff, Qle_bool_iff, Qltb_lt. tauto.
Qed.

Lemma non_overlapb_ok (tl : timeline) : non_overlapb tl = true <-> non_overlap tl.
Proof.
  induction tl as [|a [|b r] IH]; simpl in *; try tauto.
  rewrite andb_true_iff, Qle_bool_iff. tauto.
Qed.

Lemma timeline_invb_ok (tl : timeline) : timeline_invb tl = true <-> timeline_inv tl.
Proof.
  unfold timeline_invb, timeline_inv.
  rewrite andb_true_iff, non_overlapb_ok, forallb_forall, Forall_forall.
  split; intros [H1 H2]; split; trivial; intros x Hx.
  - apply seg_okb_ok, H1, list_elem_of_In, Hx.
  - apply seg_okb_ok, H1, list_elem_of_In, Hx.
Qed.

(** ** The scenarios *)

(** C5: deleting [6, 8] from the timeline A/B/C leaves A, truncates B to end
    at 8 and moves C two seconds earlier. *)
Theorem deletion_scenario_abc :
  adjust_timeline_for_deletion abc 6 8
  = [ Segment 0 5 (pys "A"); Segment 5 8 (pys "B"); Segment 8 13 (pys "C") ].
Proof. vm_compute. reflexivity. Qed.

(** C4: patching the span [5, 10] of the timeline A/B/C with a clip of 7
    seconds leaves A, extends the end of B by 2 and moves C two seconds
    later. *)
Theorem patch_scenario_abc :
  adjust_timeline_for_patch abc 5 10 7
  = [ Segment 0 5 (pys "A"); Segment 5 12 (pys "B"); Segment 12 17 (pys "C") ].
Proof. vm_compute. reflexivity. Qed.

(** ** Deletion keeps every segment well formed *)

Lemma deletion_item_weak (ds de : Q) (s : segment) :
  seg_weak s -> seg_weak (deletion_item ds de s).
Proof.
  intros [H0 Hle]. unfold seg_weak, deletion_item. qcmp; simpl.
  - split; assumption.
  - split; [apply py_max_l|]. apply py_max_mono. lra.
  - split; [assumption | apply py_max_l].
Qed.

(** C2: after a deletion of positive length no segment has a negative start
    or an end before its start. *)
Theorem deletion_no_negative_no_inverted (tl : timeline) (del_start del_end : Q) :
  Forall seg_weak tl ->
  0 < del_end - del_start ->
  Forall seg_weak (adjust_timeline_for_deletion tl del_start del_end).
Proof.
  intros Htl _. unfold adjust_timeline_for_deletion.
  induction Htl as [|s r Hs Hr IH]; simpl; constructor.
  - apply deletion_item_weak, Hs.
  - apply IH.
Qed.

Lemma deletion_no_negative_no_inverted_witness :
  Forall seg_weak abc /\ Forall seg_weak (adjust_timeline_for_deletion abc 6 8).
Proof.
  assert (Habc : Forall seg_weak abc).
  { unfold abc. repeat constructor; simpl; lra. }
  split; [exact Habc|].
  apply (deletion_no_negative_no_inverted abc 6 8 Habc). lra.
Defined.

(** ** The empty cut *)

Lemma deletion_item_empty_range (x : Q) (s : segment) :
  nonneg_times s -> seg_same (deletion_item x x s) s.
Proof.
  intros [H0 H1]. unfold seg_same, deletion_item. qcmp; simpl.
  - repeat split; reflexivity.
  - repeat split; trivial; unfold py_max; qcmp; lra.
  - repeat split; trivial; try reflexivity. unfold py_max; qcmp; lra.
Qed.

(** C7: deleting the empty range [x, x] gives back a timeline with the same
    start, end and text in every segment (times are never negative in a
    timeline). *)
Theorem deletion_empty_range_noop (tl : timeline) (x : Q) :
  Forall nonneg_times tl ->
  timeline_same (adjust_timeline_for_deletion tl x x) tl.
Proof.
  intros Htl. unfold timeline_same, adjust_timeline_for_deletion.
  induction Htl as [|s r Hs Hr IH]; simpl; constructor.
  - apply deletion_item_empty_range, Hs.
  - apply IH.
Qed.

Lemma deletion_empty_range_noop_witness :
  Forall nonneg_times abc /\ timeline_same (adjust_timeline_for_deletion abc 7 7) abc.
Proof.
  assert (Habc : Forall nonneg_times abc).
  { unfold abc. repeat constructor; simpl; lra. }
  split; [exact Habc|].
  exact (deletion_empty_range_noop abc 7 Habc).
Defined.

(** ** Which edits keep the ordering invariant *)


Lemma Forall_and_inv {A} (P R : A -> Prop) (l : list A) :
  Forall P l -> Forall R l -> Forall (fun x => P x /\ R x) l.
Proof. induction 1; inversion 1; subst; constructor; auto. Qed.





(** With the exact difference for the threshold the loop bodies are the
    ones of the transforms. *)
Lemma item_at_exact_threshold (s : segment) :
  (forall ds de, deletion_item_at (de - 0.05) ds de s = deletion_item ds de s)
  /\ (forall ts te nd, patch_item_at (te - 0.1) ts te nd s = patch_item ts te nd s).
Proof. split; reflexivity. Qed.






(** At the threshold itself the value of the threshold decides: for the cut
    from 1 to 1.05 of a sentence that starts at 1, the exact difference is
    the start, and the sentence is moved onto the one before it; a threshold
    that is greater by less than the margin leaves it in place. *)
Example threshold_decides_at_the_boundary :
  let tl := [ Segment 0 1 (pys "A"); Segment 1 3 (pys "B") ] in
  map (deletion_item_at (1.05 - 0.05) 1 1.05) tl
  = [ Segment 0 1 (pys "A"); Segment 0.95 2.95 (pys "B") ]
  /\ map (deletion_item_at (1.05 - 0.05 + (1 # 10000000)) 1 1.05) tl
     = [ Segment 0 1 (pys "A"); Segment 1 2.95 (pys "B") ].
Proof. split; vm_compute; reflexivity. Qed.


Example deletion_of_intro :
  adjust_timeline_for_deletion intro_timeline 1 5
  = [ Segment 0 0 (pys "A"); Segment 3 3 (pys "B"); Segment 1 6 (pys "C") ].
Proof. vm_compute. reflexivity. Qed.

Example patch_over_two :
  adjust_timeline_for_patch abc 0 10 20
  = [ Segment 0 15 (pys "A"); Segment 5 20 (pys "B"); Segment 20 25 (pys "C") ].
Proof. vm_compute. reflexivity. Qed.

(** ** The transforms work in place *)

Lemma store_alloc (upd : segment -> segment) (r : Obj.loc)
    (d : gmap Obj.loc segment) (s : segment) :
  d !! r = Some s -> Obj.store upd r d = <[r := upd s]> d.
Proof.
  intros Hr. unfold Obj.store. apply map_eq. intros j.
  destruct (decide (r = j)) as [->|Hne].
  - rewrite lookup_alter_eq, lookup_insert_eq, Hr. reflexivity.
  - rewrite lookup_alter_ne, lookup_insert_ne by assumption. reflexivity.
Qed.

(** One turn of the deletion loop writes [deletion_item] of the dict it
    visits back to that dict. *)
Lemma deletion_loop_cons (ds de : Q) (r : Obj.loc) (rest : list Obj.loc)
    (d : gmap Obj.loc segment) (acc : list Obj.loc) (s : segment) :
  d !! r = Some s ->
  Obj.deletion_loop ds de (r :: rest) d acc
  = Obj.deletion_loop ds de rest (<[r := deletion_item ds de s]> d) (acc ++ [r]).
Proof.
  intros Hr. simpl. rewrite Hr. simpl. unfold deletion_item.
  destruct (Qle_bool (end_ s) ds).
  - rewrite insert_id by assumption. reflexivity.
  - destruct (Qle_bool (de - 0.05) (start s)).
    + rewrite (store_alloc _ _ _ _ Hr), lookup_insert_eq. simpl.
      erewrite store_alloc by apply lookup_insert_eq.
      rewrite insert_insert_eq. reflexivity.
    + rewrite (store_alloc _ _ _ _ Hr). reflexivity.
Qed.

Lemma patch_loop_cons (ts te nd : Q) (r : Obj.loc) (rest : list Obj.loc)
    (d : gmap Obj.loc segment) (s : segment) :
  d !! r = Some s ->
  Obj.patch_loop ts te nd (r :: rest) d
  = Obj.patch_loop ts te nd rest (<[r := patch_item ts te nd s]> d).
Proof.
  intros Hr. simpl. rewrite Hr. simpl. unfold patch_item.
  destruct (Qle_bool (te - 0.1) (start s)).
  - rewrite (store_alloc _ _ _ _ Hr), lookup_insert_eq. simpl.
    erewrite store_alloc by apply lookup_insert_eq.
    rewrite insert_insert_eq. reflexivity.
  - destruct (Qltb ts (end_ s) && Qltb (start s) te).
    + rewrite (store_alloc _ _ _ _ Hr). reflexivity.
    + rewrite insert_id by assumption. reflexivity.
Qed.

Lemma rewritten_nil (f : segment -> segment) (d : gmap Obj.loc segment) :
  rewritten f [] d d.
Proof.
  split; [reflexivity|]. intros _ r Hr. apply elem_of_nil in Hr. contradiction.
Qed.

Lemma rewritten_cons (f : segment -> segment) (r : Obj.loc) (rest : list Obj.loc)
    (d d' : gmap Obj.loc segment) (s : segment) :
  d !! r = Some s ->
  rewritten f rest (<[r := f s]> d) d' ->
  rewritten f (r :: rest) d d'.
Proof.
  intros Hr [Hout Hin]. split.
  - intros j Hj. apply not_elem_of_cons in Hj as [Hne Hj].
    rewrite (Hout j Hj), lookup_insert_ne by congruence. reflexivity.
  - intros Hnd j Hj. apply NoDup_cons in Hnd as [Hfresh Hnd].
    apply elem_of_cons in Hj as [->|Hj].
    + rewrite (Hout r Hfresh), lookup_insert_eq, Hr. reflexivity.
    + rewrite (Hin Hnd j Hj), lookup_insert_ne; [reflexivity|].
      intros ->. contradiction.
Qed.

Lemma allocated_insert (r : Obj.loc) (v : segment) (rest : list Obj.loc)
    (d : gmap Obj.loc segment) :
  Forall (fun j => is_Some (d !! j)) rest ->
  Forall (fun j => is_Some (<[r := v]> d !! j)) rest.
Proof.
  intros Hall. eapply Forall_impl; [exact Hall|].
  intros j Hj. apply lookup_insert_is_Some.
  destruct (decide (r = j)); auto.
Qed.

Lemma deletion_loop_run (ds de : Q) (items : list Obj.loc) :
  forall (d : gmap Obj.loc segment) (acc : list Obj.loc),
    Forall (fun r => is_Some (d !! r)) items ->
    exists d', Obj.deletion_loop ds de items d acc = Some (d', acc ++ items)
               /\ rewritten (deletion_item ds de) items d d'.
Proof.
  induction items as [|r rest IH]; intros d acc Hall.
  - exists d. simpl. rewrite app_nil_r. split; [reflexivity | apply rewritten_nil].
  - apply Forall_cons in Hall as [[s Hr] Hrest].
    destruct (IH (<[r := deletion_item ds de s]> d) (acc ++ [r])) as (d' & Hrun & Hrw).
    { apply allocated_insert, Hrest. }
    exists d'. split.
    + rewrite (deletion_loop_cons _ _ _ _ _ _ _ Hr), Hrun, <- app_assoc. reflexivity.
    + eapply rewritten_cons; eassumption.
Qed.

Lemma patch_loop_run (ts te nd : Q) (items : list Obj.loc) :
  forall (d : gmap Obj.loc segment),
    Forall (fun r => is_Some (d !! r)) items ->
    exists d', Obj.patch_loop ts te nd items d = Some d'
               /\ rewritten (patch_item ts te nd) items d d'.
Proof.
  induction items as [|r rest IH]; intros d Hall.
  - exists d. split; [reflexivity | apply rewritten_nil].
  - apply Forall_cons in Hall as [[s Hr] Hrest].
    destruct (IH (<[r := patch_item ts te nd s]> d)) as (d' & Hrun & Hrw).
    { apply allocated_insert, Hrest. }
    exists d'. split.
    + rewrite (patch_loop_cons _ _ _ _ _ _ _ Hr), Hrun. reflexivity.
    + eapply rewritten_cons; eassumption.
Qed.

Lemma read_rewritten (f : segment -> segment) (items : list Obj.loc)
    (d d' : gmap Obj.loc segment) (vals : timeline) :
  NoDup items -> rewritten f items d d' ->
  mapM (fun r => d !! r) items = Some vals ->
  mapM (fun r => d' !! r) items = Some (map f vals).
Proof.
  intros Hnd [_ Hin] Hread. specialize (Hin Hnd). clear Hnd.
  apply mapM_Some in Hread. apply mapM_Some.
  revert Hin. induction Hread as [|r v rest vs Hr Hrest IH]; intros Hin; simpl.
  - constructor.
  - constructor.
    + rewrite Hin, Hr by (apply elem_of_cons; left; reflexivity). reflexivity.
    + apply IH. intros j Hj. apply Hin, elem_of_cons. right. exact Hj.
Qed.

Lemma read_allocated (items : list Obj.loc) (d : gmap Obj.loc segment) (vals : timeline) :
  mapM (fun r => d !! r) items = Some vals ->
  Forall (fun r => is_Some (d !! r)) items.
Proof.
  intros Hread. apply mapM_Some in Hread.
  induction Hread; constructor; eauto.
Qed.

Lemma deletion_in_place (h : Obj.heap) (tl : Obj.loc) (ds de : Q)
    (items : list Obj.loc) (vals : timeline) :
  Obj.lists h !! tl = Some items -> NoDup items ->
  Obj.read_timeline h tl = Some vals ->
  exists h' out,
    Obj.adjust_timeline_for_deletion h tl ds de = Some (h', out)
    /\ Obj.lists h !! out = None
    /\ Obj.lists h' !! out = Some items
    /\ Obj.lists h' !! tl = Some items
    /\ Obj.read_timeline h' out = Some (adjust_timeline_for_deletion vals ds de)
    /\ Obj.read_timeline h' tl = Some (adjust_timeline_for_deletion vals ds de).
Proof.
  intros Htl Hnd Hread. unfold Obj.read_timeline in Hread.
  rewrite Htl in Hread. simpl in Hread.
  destruct (deletion_loop_run ds de items (Obj.dicts h) [] (read_allocated _ _ _ Hread))
    as (d' & Hrun & Hrw).
  assert (Hfresh : Obj.lists h !! fresh (dom (Obj.lists h)) = None).
  { apply not_elem_of_dom, is_fresh. }
  assert (Hne : fresh (dom (Obj.lists h)) <> tl).
  { intros Heq. rewrite Heq, Htl in Hfresh. discriminate. }
  eexists; eexists. split.
  { unfold Obj.adjust_timeline_for_deletion. rewrite Htl. simpl.
    rewrite Hrun. simpl. reflexivity. }
  pose proof (read_rewritten _ _ _ _ _ Hnd Hrw Hread) as Hread'.
  unfold Obj.read_timeline. simpl.
  rewrite lookup_insert_eq, lookup_insert_ne, Htl by assumption. simpl.
  repeat split; assumption.
Qed.

Lemma patch_in_place (h : Obj.heap) (tl : Obj.loc) (ts te nd : Q)
    (items : list Obj.loc) (vals : timeline) :
  Obj.lists h !! tl = Some items -> NoDup items ->
  Obj.read_timeline h tl = Some vals ->
  exists h',
    Obj.adjust_timeline_for_patch h tl ts te nd = Some (h', tl)
    /\ Obj.lists h' = Obj.lists h
    /\ Obj.read_timeline h' tl = Some (adjust_timeline_for_patch vals ts te nd).
Proof.
  intros Htl Hnd Hread. unfold Obj.read_timeline in Hread.
  rewrite Htl in Hread. simpl in Hread.
  destruct (patch_loop_run ts te nd items (Obj.dicts h) (read_allocated _ _ _ Hread))
    as (d' & Hrun & Hrw).
  eexists. split.
  { unfold Obj.adjust_timeline_for_patch. rewrite Htl. simpl.
    rewrite Hrun. simpl. reflexivity. }
  pose proof (read_rewritten _ _ _ _ _ Hnd Hrw Hread) as Hread'.
  unfold Obj.read_timeline. simpl. rewrite Htl. simpl.
  split; [reflexivity | assumption].
Qed.

(** C3, as the code has it: both transforms assign to the segment dicts of
    the list they are given.  The deletion transform returns a new list
    object that holds those same dicts; the patch transform returns the list
    it was given.  After either call the input timeline reads the adjusted
    values. *)
Theorem transforms_update_in_place (h : Obj.heap) (tl : Obj.loc)
    (items : list Obj.loc) (vals : timeline) :
  Obj.lists h !! tl = Some items -> NoDup items ->
  Obj.read_timeline h tl = Some vals ->
  (forall del_start del_end, exists h' out,
      Obj.adjust_timeline_for_deletion h tl del_start del_end = Some (h', out)
      /\ Obj.lists h !! out = None
      /\ Obj.lists h' !! out = Some items
      /\ Obj.lists h' !! tl = Some items
      /\ Obj.read_timeline h' out = Some (adjust_timeline_for_deletion vals del_start del_end)
      /\ Obj.read_timeline h' tl = Some (adjust_timeline_for_deletion vals del_start del_end))
  /\ (forall target_start target_end new_duration, exists h',
      Obj.adjust_timeline_for_patch h tl target_start target_end new_duration = Some (h', tl)
      /\ Obj.lists h' = Obj.lists h
      /\ Obj.read_timeline h' tl
         = Some (adjust_timeline_for_patch vals target_start target_end new_duration)).
Proof.
  intros Htl Hnd Hread. split.
  - intros ds de. eapply deletion_in_place; eassumption.
  - intros ts te nd. eapply patch_in_place; eassumption.
Qed.

Lemma transforms_update_in_place_witness :
  Obj.read_timeline Obj.abc_heap 1%positive = Some abc
  /\ (exists h' out,
         Obj.adjust_timeline_for_deletion Obj.abc_heap 1%positive 6 8 = Some (h', out)
         /\ Obj.read_timeline h' 1%positive = Some (adjust_timeline_for_deletion abc 6 8))
  /\ (exists h',
         Obj.adjust_timeline_for_patch Obj.abc_heap 1%positive 5 10 7 = Some (h', 1%positive)
         /\ Obj.read_timeline h' 1%positive = Some (adjust_timeline_for_patch abc 5 10 7)).
Proof.
  assert (Htl : Obj.lists Obj.abc_heap !! 1%positive
                = Some [1%positive; 2%positive; 3%positive]) by reflexivity.
  assert (Hnd : NoDup [1%positive; 2%positive; 3%positive]).
  { repeat (apply NoDup_cons_2;
            [rewrite ?not_elem_of_cons; repeat split;
             (discriminate || apply not_elem_of_nil)|]).
    apply NoDup_nil_2. }
  assert (Hread : Obj.read_timeline Obj.abc_heap 1%positive = Some abc) by reflexivity.
  destruct (transforms_update_in_place Obj.abc_heap 1%positive _ abc Htl Hnd Hread)
    as [Hdel Hpatch].
  split; [exact Hread|]. split.
  - destruct (Hdel 6 8) as (h' & out & Hcall & _ & _ & _ & _ & Hin).
    exists h', out. split; assumption.
  - destruct (Hpatch 5 10 7) as (h' & Hcall & _ & Hin).
    exists h'. split; assumption.
Defined.

(** C3 fails as stated: after the call the input timeline no longer reads
    A/B/C, the list returned by the deletion transform holds the input's own
    dicts, and the patch transform returns the input list itself. *)
Lemma transforms_mutate_their_input :
  (exists h' out,
      Obj.adjust_timeline_for_deletion Obj.abc_heap 1%positive 6 8 = Some (h', out)
      /\ Obj.read_timeline Obj.abc_heap 1%positive = Some abc
      /\ Obj.read_timeline h' 1%positive
         = Some [ Segment 0 5 (pys "A"); Segment 5 8 (pys "B"); Segment 8 13 (pys "C") ]
      /\ Obj.read_timeline h' 1%positive <> Obj.read_timeline Obj.abc_heap 1%positive
      /\ Obj.lists h' !! out = Obj.lists Obj.abc_heap !! 1%positive)
  /\ (exists h',
      Obj.adjust_timeline_for_patch Obj.abc_heap 1%positive 5 10 7 = Some (h', 1%positive)
      /\ Obj.read_timeline h' 1%positive
         = Some [ Segment 0 5 (pys "A"); Segment 5 12 (pys "B"); Segment 12 17 (pys "C") ]
      /\ Obj.read_timeline h' 1%positive <> Obj.read_timeline Obj.abc_heap 1%positive).
Proof.
  split.
  - eexists; eexists. split; [vm_compute; reflexivity|].
    repeat split; try (vm_compute; reflexivity).
    vm_compute. discriminate.
  - eexists. split; [vm_compute; reflexivity|].
    repeat split; try (vm_compute; reflexivity).
    vm_compute. discriminate.
Qed.

(** ** The sentence merger *)

Example merge_hello_world :
  merge_fragments [ Segment 0 2 (pys "Hello"); Segment 2 4.5 (pys "world.") ] 5
  = [ Segment 0 4.5 (pys "Hello world.") ].
Proof. vm_compute. reflexivity. Qed.

(** A fragment that starts at or after its end, or at or after the end of
    the audio, is passed over. *)
Lemma merge_loop_discard (dur : Q) (item : segment) (rest : list segment)
    (buffer : option segment) (merged : list segment) :
  end_ item <= start item \/ dur <= start item ->
  merge_loop dur (item :: rest) buffer merged = merge_loop dur rest buffer merged.
Proof.
  intros H. simpl. destruct (Qle_bool (end_ item) (start item)) eqn:E1; [reflexivity|].
  destruct (Qle_bool dur (start item)) eqn:E2; [reflexivity|].
  exfalso. qcmp. lra.
Qed.

Lemma Forall_snoc {A} (P : A -> Prop) (l : list A) (x : A) :
  Forall P l -> P x -> Forall P (l ++ [x]).
Proof. intros Hl Hx. apply Forall_app. split; [assumption | repeat constructor; assumption]. Qed.

(** No segment of the output ends after the end of the audio. *)
Lemma merge_loop_bounded (dur : Q) (raw : list segment) :
  forall (buffer : option segment) (merged : list segment),
    Forall (fun s => end_ s <= dur) merged ->
    (forall b, buffer = Some b -> end_ b <= dur) ->
    Forall (fun s => end_ s <= dur) (merge_loop dur raw buffer merged).
Proof.
  induction raw as [|item rest IH]; intros buffer merged Hm Hb; simpl.
  - destruct buffer as [b|]; [|assumption].
    apply Forall_snoc; [assumption | apply Hb; reflexivity].
  - destruct (Qle_bool (end_ item) (start item)) eqn:E1; [apply IH; assumption|].
    destruct (Qle_bool dur (start item)) eqn:E2; [apply IH; assumption|].
    set (item' := if Qltb dur (end_ item) then set_end dur item else item).
    assert (Hitem : end_ item' <= dur).
    { subst item'. destruct (Qltb dur (end_ item)) eqn:E3; simpl; qcmp; lra. }
    set (buffer' := match buffer with
                    | Some b => _
                    | None => item'
                    end).
    assert (Hbuf : end_ buffer' <= dur).
    { subst buffer'. destruct buffer; simpl; assumption. }
    destruct (ends_sentence (strip (text buffer'))).
    + apply IH; [apply Forall_snoc; assumption | discriminate].
    + apply IH; [assumption|]. intros b [= <-]. assumption.
Qed.

Lemma starts_ascending_tail (item : segment) (rest : list segment) :
  starts_ascending (item :: rest) -> starts_ascending rest /\ starts_from (start item) rest.
Proof. destruct rest; simpl; tauto. Qed.

Lemma starts_from_tail (x : Q) (item : segment) (rest : list segment) :
  starts_ascending (item :: rest) -> x <= start item -> starts_from x rest.
Proof. destruct rest; simpl; [trivial|]. intros [H _] Hx. lra. Qed.

(** On fragments in time order every segment of the output starts before it
    ends. *)
Lemma merge_loop_proper (dur : Q) (raw : list segment) :
  forall (buffer : option segment) (merged : list segment),
    starts_ascending raw ->
    Forall (fun s => start s < end_ s) merged ->
    (forall b, buffer = Some b -> start b < end_ b /\ starts_from (start b) raw) ->
    Forall (fun s => start s < end_ s) (merge_loop dur raw buffer merged).
Proof.
  induction raw as [|item rest IH]; intros buffer merged Hasc Hm Hb; simpl.
  - destruct buffer as [b|]; [|assumption].
    apply Forall_snoc; [assumption | apply (Hb b); reflexivity].
  - pose proof (starts_ascending_tail _ _ Hasc) as [Hrest Hnext].
    assert (Hskip : forall b, buffer = Some b ->
                              start b < end_ b /\ starts_from (start b) rest).
    { intros b Hbuf. destruct (Hb b Hbuf) as [Hlt Hfrom]. split; [assumption|].
      eapply starts_from_tail; eassumption. }
    destruct (Qle_bool (end_ item) (start item)) eqn:E1; [apply IH; assumption|].
    destruct (Qle_bool dur (start item)) eqn:E2; [apply IH; assumption|].
    set (item' := if Qltb dur (end_ item) then set_end dur item else item).
    assert (Hitem : start item' = start item /\ start item < end_ item').
    { subst item'. destruct (Qltb dur (end_ item)) eqn:E3; simpl; qcmp; split;
        (reflexivity || lra). }
    destruct Hitem as [Hst Hlt].
    set (buffer' := match buffer with
                    | Some b => _
                    | None => item'
                    end).
    assert (Hbuf : start buffer' < end_ buffer' /\ starts_from (start buffer') rest).
    { subst buffer'. destruct buffer as [b|]; simpl.
      - destruct (Hb b eq_refl) as [_ Hfrom]. simpl in Hfrom.
        split; [lra | apply (Hskip b eq_refl)].
      - rewrite Hst. split; assumption. }
    destruct (ends_sentence (strip (text buffer'))).
    + apply IH; [assumption | apply Forall_snoc; tauto | discriminate].
    + apply IH; [assumption | assumption |]. intros b [= <-]. assumption.
Qed.

Lemma merge_loop_discard_anywhere (dur : Q) (item : segment) (pre post : list segment) :
  end_ item <= start item \/ dur <= start item ->
  forall (buffer : option segment) (merged : list segment),
    merge_loop dur (pre ++ item :: post) buffer merged
    = merge_loop dur (pre ++ post) buffer merged.
Proof.
  intros Hbad. induction pre as [|a pre IH]; intros buffer merged.
  - apply merge_loop_discard, Hbad.
  - simpl. repeat match goal with
           | |- context [if ?c then _ else _] => destruct c
           end; apply IH.
Qed.

(** C6, as the code has it: no segment of the merger's output ends after the
    total duration, whatever the fragments; a fragment that starts at or
    after its end or at or after the total duration leaves no trace in the
    output; and when the fragments start in time order, every segment of the
    output starts before it ends. *)
Theorem merger_output_in_bounds (raw_data : list segment) (real_duration : Q) :
  Forall (fun s => end_ s <= real_duration) (merge_fragments raw_data real_duration)
  /\ (forall pre item post,
        raw_data = pre ++ item :: post ->
        end_ item <= start item \/ real_duration <= start item ->
        merge_fragments raw_data real_duration
        = merge_fragments (pre ++ post) real_duration)
  /\ (starts_ascending raw_data ->
      Forall (fun s => start s < end_ s) (merge_fragments raw_data real_duration)).
Proof.
  unfold merge_fragments. split; [|split].
  - apply merge_loop_bounded; [constructor | discriminate].
  - intros pre item post -> Hbad. apply merge_loop_discard_anywhere, Hbad.
  - intros Hasc. apply merge_loop_proper; [assumption | constructor | discriminate].
Qed.

Lemma merger_output_in_bounds_witness :
  starts_ascending [ Segment 0 2 (pys "Hello"); Segment 2 4.5 (pys "world.") ]
  /\ Forall (fun s => start s < end_ s)
       (merge_fragments [ Segment 0 2 (pys "Hello"); Segment 2 4.5 (pys "world.") ] 5).
Proof.
  assert (Hasc : starts_ascending
                   [ Segment 0 2 (pys "Hello"); Segment 2 4.5 (pys "world.") ]).
  { simpl. split; [lra | exact I]. }
  split; [exact Hasc|].
  exact (proj2 (proj2 (merger_output_in_bounds _ 5)) Hasc).
Defined.

(** C6 fails as stated: two fragments out of time order, each valid on its
    own, merge into a sentence that starts at 5 and ends at 2. *)
Lemma merger_emits_inverted_segment :
  merge_fragments [ Segment 5 6 (pys "a"); Segment 1 2 (pys "b.") ] 10
  = [ Segment 5 2 (pys "a b.") ]
  /\ ~ Forall (fun s => start s < end_ s)
        (merge_fragments [ Segment 5 6 (pys "a"); Segment 1 2 (pys "b.") ] 10).
Proof.
  split; [vm_compute; reflexivity|].
  intros H. apply Forall_cons in H as [H _]. simpl in H.
  apply Qlt_not_le in H. apply H. apply Qle_bool_iff. vm_compute. reflexivity.
Qed.

(** ** The strict text normaliser *)

Ltac range_facts :=
  unfold allowed, py_isspace, in_range, space in *;
  repeat match goal with
  | H : _ || _ = true |- _ => apply orb_true_iff in H; destruct H
  | H : _ && _ = true |- _ => apply andb_true_iff in H; destruct H
  | H : (_ <=? _)%N = true |- _ => apply N.leb_le in H
  | H : (_ =? _)%N = true |- _ => apply N.eqb_eq in H
  end.

Lemma allowed_not_space (c : codepoint) : allowed c = true -> py_isspace c = false.
Proof.
  intros Ha. destruct (py_isspace c) eqn:Hs; [|reflexivity].
  exfalso. range_facts; lia.
Qed.

Lemma space_isspace : py_isspace space = true.
Proof. reflexivity. Qed.

Lemma word_char_space (c : codepoint) : word_char c -> py_isspace c = true -> c = space.
Proof.
  intros [Ha|Hc] Hs; [|assumption].
  rewrite (allowed_not_space c Ha) in Hs. discriminate.
Qed.

Lemma not_space_not_isspace (c : codepoint) : py_isspace c = false -> c <> space.
Proof. intros Hs ->. discriminate. Qed.

Lemma sub_not_allowed_chars (s : pystr) : Forall word_char (sub_not_allowed s).
Proof.
  unfold sub_not_allowed. induction s as [|c r IH]; simpl; constructor; [|assumption].
  destruct (allowed c) eqn:Ha; [left; assumption | right; reflexivity].
Qed.

(** Collapsing the runs leaves word characters, never two spaces in a row,
    and no space at the front when the text is entered inside a run. *)
Lemma sub_runs_shape (s : pystr) :
  Forall word_char s ->
  forall in_run,
    Forall word_char (sub_runs in_run s)
    /\ single_spaced (sub_runs in_run s)
    /\ (in_run = true -> forall c, head (sub_runs in_run s) = Some c -> py_isspace c = false).
Proof.
  induction 1 as [|c r Hc Hr IH]; intros in_run; simpl.
  - repeat split; [constructor | discriminate].
  - destruct (py_isspace c) eqn:Hs.
    + destruct (IH true) as (Hw & Hss & Hhd). destruct in_run.
      * repeat split; auto.
      * repeat split; [constructor; [right; reflexivity | assumption] | | discriminate].
        destruct (sub_runs true r) as [|b r'] eqn:Hout; simpl; [trivial|].
        split; [|assumption]. intros [_ ->].
        specialize (Hhd eq_refl space eq_refl). discriminate.
    + destruct (IH false) as (Hw & Hss & _).
      repeat split; [constructor; assumption | | intros _ c' [= <-]; assumption].
      destruct (sub_runs false r) as [|b r'] eqn:Hout; simpl; [trivial|].
      split; [|assumption]. intros [-> _]. discriminate.
Qed.

Lemma lstrip_suffix (s : pystr) : exists l, s = l ++ lstrip s.
Proof.
  induction s as [|c r [l IH]]; simpl.
  - exists []. reflexivity.
  - destruct (py_isspace c).
    + exists (c :: l). simpl. f_equal. exact IH.
    + exists []. reflexivity.
Qed.

Lemma lstrip_head (s : pystr) (c : codepoint) :
  head (lstrip s) = Some c -> py_isspace c = false.
Proof.
  induction s as [|a r IH]; simpl; [discriminate|].
  destruct (py_isspace a) eqn:Hs; [assumption|].
  simpl. intros [= <-]. assumption.
Qed.

Lemma lstrip_id (s : pystr) :
  (forall c, head s = Some c -> py_isspace c = false) -> lstrip s = s.
Proof.
  destruct s as [|a r]; simpl; [reflexivity|].
  intros H. rewrite (H a eq_refl). reflexivity.
Qed.

Lemma rstrip_prefix (s : pystr) : exists l, s = rstrip s ++ l.
Proof.
  unfold rstrip. destruct (lstrip_suffix (reverse s)) as [l Hl].
  exists (reverse l).
  rewrite <- reverse_app, <- Hl, reverse_involutive. reflexivity.
Qed.

Lemma rstrip_last (s : pystr) (c : codepoint) :
  last (rstrip s) = Some c -> py_isspace c = false.
Proof. unfold rstrip. rewrite last_reverse. apply lstrip_head. Qed.

Lemma rstrip_id (s : pystr) :
  (forall c, last s = Some c -> py_isspace c = false) -> rstrip s = s.
Proof.
  intros H. unfold rstrip. rewrite lstrip_id, reverse_involutive; [reflexivity|].
  intros c. rewrite head_reverse. apply H.
Qed.

Lemma single_spaced_app_l (p l : pystr) : single_spaced (p ++ l) -> single_spaced p.
Proof.
  induction p as [|a [|b p'] IH]; simpl in *; tauto.
Qed.

Lemma single_spaced_app_r (p l : pystr) : single_spaced (p ++ l) -> single_spaced l.
Proof.
  induction p as [|a p' IH]; simpl; [trivial|].
  destruct (p' ++ l) eqn:E; intros H.
  - apply IH. exact I.
  - apply IH, H.
Qed.

Lemma head_prefix (p l : pystr) (c : codepoint) :
  head p = Some c -> head (p ++ l) = Some c.
Proof. destruct p; simpl; [discriminate | trivial]. Qed.

(** Stripping keeps the shape and clears both ends. *)
Lemma strip_shape (s : pystr) :
  Forall word_char s -> single_spaced s ->
  Forall word_char (strip s) /\ single_spaced (strip s) /\ no_outer_whitespace (strip s).
Proof.
  intros Hw Hss. unfold strip.
  destruct (lstrip_suffix s) as [l1 H1].
  destruct (rstrip_prefix (lstrip s)) as [l2 H2].
  rewrite H1 in Hw, Hss.
  apply Forall_app in Hw as [_ Hw]. apply single_spaced_app_r in Hss.
  rewrite H2 in Hw, Hss.
  apply Forall_app in Hw as [Hw _]. apply single_spaced_app_l in Hss.
  repeat split; try assumption.
  - intros c Hc. apply (lstrip_head s). rewrite H2. apply head_prefix, Hc.
  - apply rstrip_last.
Qed.

Lemma normalize_canonical (t : pystr) : canonical (normalize_text_strict t).
Proof.
  unfold normalize_text_strict, sub_whitespace.
  destruct (sub_runs_shape _ (sub_not_allowed_chars t) false) as (Hw & Hss & _).
  apply strip_shape; assumption.
Qed.

Lemma sub_not_allowed_id (s : pystr) : Forall word_char s -> sub_not_allowed s = s.
Proof.
  unfold sub_not_allowed. induction 1 as [|c r Hc Hr IH]; simpl; [reflexivity|].
  rewrite IH. destruct Hc as [Ha| ->]; [rewrite Ha|]; reflexivity.
Qed.

Lemma sub_runs_id (s : pystr) :
  Forall word_char s -> single_spaced s ->
  forall in_run,
    (in_run = true -> forall c, head s = Some c -> py_isspace c = false) ->
    sub_runs in_run s = s.
Proof.
  induction 1 as [|c r Hc Hr IH]; intros Hss in_run Hhd; simpl; [reflexivity|].
  assert (Hss' : single_spaced r) by (destruct r; simpl in *; tauto).
  destruct (py_isspace c) eqn:Hs.
  - destruct in_run; [rewrite (Hhd eq_refl c eq_refl) in Hs; discriminate|].
    rewrite (word_char_space c Hc Hs) in *. f_equal.
    apply IH; [assumption|]. intros _ b Hb.
    destruct r as [|b' r']; simpl in *; [discriminate|]. injection Hb as ->.
    destruct (py_isspace b) eqn:Hsb; [|reflexivity].
    apply Forall_cons in Hr as [Hwb _].
    destruct Hss as [Hne _]. exfalso. apply Hne.
    split; [reflexivity | apply word_char_space; assumption].
  - f_equal. apply IH; [assumption | discriminate].
Qed.

Lemma normalize_fixes_canonical (s : pystr) : canonical s -> normalize_text_strict s = s.
Proof.
  intros (Hw & Hss & Hhd & Hlast). unfold normalize_text_strict, sub_whitespace, strip.
  rewrite (sub_not_allowed_id s Hw).
  rewrite (sub_runs_id s Hw Hss false) by discriminate.
  rewrite (lstrip_id s Hhd). apply rstrip_id, Hlast.
Qed.

(** C10: the normalised text is made of Hangul syllables, ASCII letters and
    digits with single spaces between them and no whitespace at either end,
    and normalising it again changes nothing. *)
Theorem normalize_text_strict_canonical_idempotent (text : pystr) :
  canonical (normalize_text_strict text)
  /\ normalize_text_strict (normalize_text_strict text) = normalize_text_strict text.
Proof.
  split; [apply normalize_canonical|].
  apply normalize_fixes_canonical, normalize_canonical.
Qed.

Example normalize_mixed_text :
  normalize_text_strict
    (pys "  Hello,   world!! " ++ [0xC548%N; 0xB155%N; 0x3000%N; 9%N] ++ pys "a_b")
  = pys "Hello world " ++ [0xC548%N; 0xB155%N] ++ pys " a b".
Proof. vm_compute. reflexivity. Qed.

(** ** The leading-silence normaliser *)

Section NormaliserFacts.

Variable wave_read : bytes -> wave_read_result.
Variable wave_write : Z -> Z -> Z -> bytes -> option bytes.

Lemma short_payload_guard (b : bytes) :
  (length b < 100)%nat ->
  negb (truthy (Some b)) || (length b <? 100)%nat = true.
Proof.
  intros Hlen. apply orb_true_iff. right. apply Nat.ltb_lt, Hlen.
Qed.

Lemma long_payload_guard (b : bytes) :
  (100 <= length b)%nat ->
  negb (truthy (Some b)) || (length b <? 100)%nat = false.
Proof.
  intros Hlen. apply orb_false_iff. split.
  - destruct b; simpl in *; [lia | reflexivity].
  - apply Nat.ltb_ge, Hlen.
Qed.

(** C8: a missing, empty or short payload gives the error value; a payload
    of 100 bytes or more without the RIFF signature is taken whole as raw
    PCM, mono, 16 bit, 24000 Hz; and so is one with the signature that the
    wave reader rejects with [wave.Error].  But the fallback is missed when
    the reader fails on the header with any other exception (as it does with
    [EOFError] on a format chunk cut short): the handler of the fallback
    catches [wave.Error] only, and the payload is answered with the error
    value. *)
Theorem padding_guard_and_raw_fallback :
  (forall d, add_silence_padding wave_read wave_write None d = None)
  /\ (forall b d, (length b < 100)%nat ->
        add_silence_padding wave_read wave_write (Some b) d = None)
  /\ (forall b d, (100 <= length b)%nat -> startswith b RIFF = false ->
        add_silence_padding wave_read wave_write (Some b) d
        = pad_and_wrap wave_write 1 2 24000 b d)
  /\ (forall b d, (100 <= length b)%nat -> startswith b RIFF = true ->
        wave_read b = WaveError ->
        add_silence_padding wave_read wave_write (Some b) d
        = pad_and_wrap wave_write 1 2 24000 b d)
  /\ (forall b d, (100 <= length b)%nat -> startswith b RIFF = true ->
        wave_read b = WaveOtherError ->
        add_silence_padding wave_read wave_write (Some b) d = None).
Proof.
  repeat split.
  - intros b d Hlen. unfold add_silence_padding.
    rewrite (short_payload_guard b Hlen). reflexivity.
  - intros b d Hlen Hsig. unfold add_silence_padding.
    rewrite (long_payload_guard b Hlen), Hsig. reflexivity.
  - intros b d Hlen Hsig Herr. unfold add_silence_padding.
    rewrite (long_payload_guard b Hlen), Hsig, Herr. reflexivity.
  - intros b d Hlen Hsig Herr. unfold add_silence_padding.
    rewrite (long_payload_guard b Hlen), Hsig, Herr. reflexivity.
Qed.

(** With the default profile the normaliser writes half a second of silence
    as 24000 zero bytes in front of the payload. *)
Lemma pad_and_wrap_default_half_second (b : bytes) :
  pad_and_wrap wave_write 1 2 24000 b 0.5
  = wave_write 1 2 24000 (repeat x00 (Z.to_nat 24000) ++ b).
Proof. reflexivity. Qed.

End NormaliserFacts.

Lemma padding_guard_and_raw_fallback_witness :
  add_silence_padding rejecting_reader bare_writer (Some (repeat x01 99)) 0.5 = None
  /\ add_silence_padding rejecting_reader bare_writer (Some (repeat x01 100)) 0.5
     = Some (repeat x00 (Z.to_nat 24000) ++ repeat x01 100)
  /\ add_silence_padding rejecting_reader bare_writer (Some (RIFF ++ repeat x01 100)) 0.5
     = Some (repeat x00 (Z.to_nat 24000) ++ RIFF ++ repeat x01 100)
  /\ (length short_fmt_container = 100%nat
      /\ startswith short_fmt_container RIFF = true
      /\ add_silence_padding eof_reader bare_writer (Some short_fmt_container) 0.5 = None).
Proof.
  destruct (padding_guard_and_raw_fallback rejecting_reader bare_writer)
    as (_ & Hshort & Hraw & Hbad & _).
  destruct (padding_guard_and_raw_fallback eof_reader bare_writer)
    as (_ & _ & _ & _ & Hmissed).
  split; [|split; [|split]].
  - apply Hshort. simpl. lia.
  - rewrite Hraw; [reflexivity | simpl; lia | reflexivity].
  - rewrite Hbad; [reflexivity | simpl; lia | reflexivity | reflexivity].
  - split; [reflexivity|]. split; [reflexivity|].
    apply Hmissed; [simpl; lia | reflexivity | reflexivity].
Defined.

(** ** The edit coordinator *)

Section CoordinatorFacts.

Variable wave_read : bytes -> wave_read_result.
Variable wave_write : Z -> Z -> Z -> bytes -> option bytes.
Variable delete_audio_range : bytes -> Q -> Q -> option bytes.
Variable patch_audio_segment : bytes -> bytes -> Q -> Q -> option bytes.
Variable generate_speech : pystr -> option bytes.

Lemma delete_button_failure (s : session) (ds de : Q) (orig : bytes) :
  audio_file s = Some orig -> delete_audio_range orig ds de = None ->
  delete_button delete_audio_range s ds de = (s, []).
Proof. intros Hf Hfail. unfold delete_button. rewrite Hf, Hfail. reflexivity. Qed.

Lemma delete_button_outcome (s s' : session) (ds de : Q) (tr : list event) :
  delete_button delete_audio_range s ds de = (s', tr) ->
  (s' = s /\ tr = [])
  \/ (exists orig new_audio,
         audio_file s = Some orig
         /\ delete_audio_range orig ds de = Some new_audio
         /\ committed_together s s' tr new_audio
              (fun tl => adjust_timeline_for_deletion tl ds de)).
Proof.
  unfold delete_button, committed_together.
  destruct (audio_file s) as [orig|] eqn:Hf; [|intros [= <- <-]; left; split; reflexivity].
  destruct (delete_audio_range orig ds de) as [[|c new]|] eqn:Hsplice;
    try (intros [= <- <-]; left; split; reflexivity).
  simpl. destruct (session_timeline s) as [tl|] eqn:Htl; intros [= <- <-];
    right; exists orig, (c :: new); simpl; rewrite ?Htl;
    repeat split; (reflexivity || assumption).
Qed.

Lemma patch_button_failure (s : session) (patch_text : pystr) (st et : Q) (orig : bytes) :
  audio_file s = Some orig ->
  (forall new_part,
      add_silence_padding wave_read wave_write (generate_speech patch_text) 0.1
      = Some new_part ->
      patch_audio_segment orig new_part st et = None) ->
  patch_button wave_read wave_write patch_audio_segment generate_speech s patch_text st et
  = (s, []).
Proof.
  intros Hf Hfail. unfold patch_button.
  destruct (bool_decide (strip patch_text = [])); [reflexivity|].
  destruct (add_silence_padding _ _ _ _) as [[|c new_part]|]; try reflexivity.
  rewrite Hf. destruct (measure_duration _ _); [|reflexivity].
  rewrite (Hfail _ eq_refl). reflexivity.
Qed.

Lemma patch_button_outcome (s s' : session) (patch_text : pystr) (st et : Q)
    (tr : list event) :
  patch_button wave_read wave_write patch_audio_segment generate_speech s patch_text st et
  = (s', tr) ->
  (s' = s /\ tr = [])
  \/ (exists orig new_part new_duration patched,
         audio_file s = Some orig
         /\ measure_duration wave_read new_part = Some new_duration
         /\ patch_audio_segment orig new_part st et = Some patched
         /\ committed_together s s' tr patched
              (fun tl => adjust_timeline_for_patch tl st et new_duration)).
Proof.
  unfold patch_button, committed_together.
  destruct (bool_decide (strip patch_text = [])); [intros [= <- <-]; left; split; reflexivity|].
  destruct (add_silence_padding _ _ _ _) as [[|c0 new_part]|];
    try (intros [= <- <-]; left; split; reflexivity).
  destruct (audio_file s) as [orig|] eqn:Hf; [|intros [= <- <-]; left; split; reflexivity].
  destruct (measure_duration _ _) as [new_duration|] eqn:Hdur;
    [|intros [= <- <-]; left; split; reflexivity].
  destruct (patch_audio_segment orig _ st et) as [[|c patched]|] eqn:Hsplice;
    try (intros [= <- <-]; left; split; reflexivity).
  simpl. destruct (session_timeline s) as [tl|] eqn:Htl; intros [= <- <-];
    right; exists orig, (c0 :: new_part), new_duration, (c :: patched);
    simpl; rewrite ?Htl; repeat split; (reflexivity || assumption).
Qed.

(** C9: when the splice fails neither button changes the audio file or the
    session timeline; and whatever a button does, it either leaves both as
    they were or has written the spliced audio and then adjusted the
    timeline kept in the session. *)
Theorem audio_success_gates_timeline (s : session) :
  (forall ds de orig,
      audio_file s = Some orig -> delete_audio_range orig ds de = None ->
      delete_button delete_audio_range s ds de = (s, []))
  /\ (forall ds de s' tr,
      delete_button delete_audio_range s ds de = (s', tr) ->
      (s' = s /\ tr = [])
      \/ (exists orig new_audio,
             audio_file s = Some orig
             /\ delete_audio_range orig ds de = Some new_audio
             /\ committed_together s s' tr new_audio
                  (fun tl => adjust_timeline_for_deletion tl ds de)))
  /\ (forall patch_text st et orig,
      audio_file s = Some orig ->
      (forall new_part,
          add_silence_padding wave_read wave_write (generate_speech patch_text) 0.1
          = Some new_part ->
          patch_audio_segment orig new_part st et = None) ->
      patch_button wave_read wave_write patch_audio_segment generate_speech
        s patch_text st et = (s, []))
  /\ (forall patch_text st et s' tr,
      patch_button wave_read wave_write patch_audio_segment generate_speech
        s patch_text st et = (s', tr) ->
      (s' = s /\ tr = [])
      \/ (exists orig new_part new_duration patched,
             audio_file s = Some orig
             /\ measure_duration wave_read new_part = Some new_duration
             /\ patch_audio_segment orig new_part st et = Some patched
             /\ committed_together s s' tr patched
                  (fun tl => adjust_timeline_for_patch tl st et new_duration))).
Proof.
  split; [|split; [|split]].
  - intros ds de orig. apply delete_button_failure.
  - intros ds de s' tr. apply delete_button_outcome.
  - intros patch_text st et orig. apply patch_button_failure.
  - intros patch_text st et s' tr. apply patch_button_outcome.
Qed.

End CoordinatorFacts.

Lemma audio_success_gates_timeline_witness :
  delete_button failing_delete abc_session 6 8 = (abc_session, [])
  /\ delete_button working_delete abc_session 6 8
     = (Session (Some [x02; x07]) (Some (adjust_timeline_for_deletion abc 6 8)),
        [AudioWritten [x02; x07]; TimelineAdjusted (adjust_timeline_for_deletion abc 6 8)])
  /\ patch_button raw_reader bare_writer failing_patch raw_speech abc_session (pys "B") 5 10
     = (abc_session, [])
  /\ (exists new_part new_duration patched,
         measure_duration raw_reader new_part = Some new_duration
         /\ working_patch [x07] new_part 5 10 = Some patched
         /\ committed_together abc_session
              (fst (patch_button raw_reader bare_writer working_patch raw_speech
                      abc_session (pys "B") 5 10))
              (snd (patch_button raw_reader bare_writer working_patch raw_speech
                      abc_session (pys "B") 5 10))
              patched
              (fun tl => adjust_timeline_for_patch tl 5 10 new_duration)).
Proof.
  split; [|split; [|split]].
  - destruct (audio_success_gates_timeline raw_reader bare_writer failing_delete
                failing_patch raw_speech abc_session) as (Hfail & _).
    apply (Hfail 6 8 [x07]); reflexivity.
  - destruct (audio_success_gates_timeline raw_reader bare_writer working_delete
                working_patch raw_speech abc_session) as (_ & Hout & _).
    destruct (Hout 6 8 _ _ (surjective_pairing _))
      as [[_ Hnone] | (orig & new_audio & _ & _ & _)]; [discriminate Hnone|].
    vm_compute. reflexivity.
  - destruct (audio_success_gates_timeline raw_reader bare_writer failing_delete
                failing_patch raw_speech abc_session) as (_ & _ & Hfail & _).
    apply (Hfail (pys "B") 5 10 [x07]); reflexivity.
  - destruct (audio_success_gates_timeline raw_reader bare_writer working_delete
                working_patch raw_speech abc_session) as (_ & _ & _ & Hout).
    destruct (Hout (pys "B") 5 10 _ _ (surjective_pairing _))
      as [[_ Hnone] | (orig & new_part & new_duration & patched & Hf & Hdur & Hp & Hc)].
    + vm_compute in Hnone. discriminate Hnone.
    + injection Hf as <-. exists new_part, new_duration, patched. auto.
Defined.

(** * Further properties of the code *)

(** ** The timeline transforms *)

Lemma deletion_item_text (ds de : Q) (s : segment) : text (deletion_item ds de s) = text s.
Proof. unfold deletion_item. qcmp; reflexivity. Qed.

Lemma patch_item_text (ts te nd : Q) (s : segment) : text (patch_item ts te nd s) = text s.
Proof.
  unfold patch_item. destruct (Qle_bool _ _); [reflexivity|].
  destruct (_ && _); reflexivity.
Qed.

(** X1: neither transform drops, adds or reorders a sentence, or touches its
    text: the texts of the result are the texts of the input, in order. *)
Theorem transforms_keep_texts (tl : timeline) :
  (forall del_start del_end,
      map text (adjust_timeline_for_deletion tl del_start del_end) = map text tl)
  /\ (forall target_start target_end new_duration,
      map text (adjust_timeline_for_patch tl target_start target_end new_duration)
      = map text tl).
Proof.
  split; intros.
  - unfold adjust_timeline_for_deletion. rewrite map_map.
    apply map_ext. intros s. apply deletion_item_text.
  - unfold adjust_timeline_for_patch. rewrite map_map.
    apply map_ext. intros s. apply patch_item_text.
Qed.




Lemma patch_item_same_duration (ts te : Q) (s : segment) :
  seg_same (patch_item ts te (te - ts) s) s.
Proof.
  unfold seg_same, patch_item. destruct (Qle_bool _ _); simpl.
  - repeat split; try reflexivity; lra.
  - destruct (_ && _); simpl; repeat split; try reflexivity; lra.
Qed.

(** X3: a patch whose clip is exactly as long as the span it replaces leaves
    every start and end as it was. *)
Theorem patch_same_duration_noop (tl : timeline) (target_start target_end : Q) :
  timeline_same
    (adjust_timeline_for_patch tl target_start target_end (target_end - target_start))
    tl.
Proof.
  unfold timeline_same, adjust_timeline_for_patch.
  induction tl as [|s r IH]; simpl; constructor.
  - apply patch_item_same_duration.
  - apply IH.
Qed.







(** A sentence that starts inside the cut can be left ending after the
    lowered bound. *)
Example deletion_leaves_segment_past_bound :
  adjust_timeline_for_deletion [ Segment 8 9 (pys "A") ] 0 9 = [ Segment 8 8 (pys "A") ].
Proof. vm_compute. reflexivity. Qed.

(** ** The transforms on objects: what they leave alone *)

Lemma allocated_of_read (h : Obj.heap) (tl : Obj.loc) (items : list Obj.loc)
    (vals : timeline) :
  Obj.lists h !! tl = Some items -> Obj.read_timeline h tl = Some vals ->
  Forall (fun r => is_Some (Obj.dicts h !! r)) items.
Proof.
  intros Htl Hread. unfold Obj.read_timeline in Hread. rewrite Htl in Hread.
  simpl in Hread. eapply read_allocated, Hread.
Qed.

(** X6: the transforms write to the dicts of the timeline they are given and
    to nothing else: every other dict of the heap keeps its value, and every
    list object that existed before the call holds what it held. *)
Theorem transforms_frame (h : Obj.heap) (tl : Obj.loc)
    (items : list Obj.loc) (vals : timeline) :
  Obj.lists h !! tl = Some items ->
  Obj.read_timeline h tl = Some vals ->
  (forall del_start del_end, exists h' out,
      Obj.adjust_timeline_for_deletion h tl del_start del_end = Some (h', out)
      /\ (forall r, r ∉ items -> Obj.dicts h' !! r = Obj.dicts h !! r)
      /\ (forall l, is_Some (Obj.lists h !! l) -> Obj.lists h' !! l = Obj.lists h !! l))
  /\ (forall target_start target_end new_duration, exists h' out,
      Obj.adjust_timeline_for_patch h tl target_start target_end new_duration
      = Some (h', out)
      /\ (forall r, r ∉ items -> Obj.dicts h' !! r = Obj.dicts h !! r)
      /\ (forall l, Obj.lists h' !! l = Obj.lists h !! l)).
Proof.
  intros Htl Hread. pose proof (allocated_of_read _ _ _ _ Htl Hread) as Hall. split.
  - intros ds de.
    destruct (deletion_loop_run ds de items (Obj.dicts h) [] Hall) as (d' & Hrun & Hout & _).
    eexists; eexists. split.
    { unfold Obj.adjust_timeline_for_deletion. rewrite Htl. simpl.
      rewrite Hrun. simpl. reflexivity. }
    simpl. split; [exact Hout|].
    intros l [x Hl]. apply lookup_insert_ne. intros Heq.
    pose proof (is_fresh (dom (Obj.lists h))) as Hfresh.
    apply Hfresh. rewrite Heq. apply elem_of_dom. eauto.
  - intros ts te nd.
    destruct (patch_loop_run ts te nd items (Obj.dicts h) Hall) as (d' & Hrun & Hout & _).
    eexists; eexists. split.
    { unfold Obj.adjust_timeline_for_patch. rewrite Htl. simpl.
      rewrite Hrun. simpl. reflexivity. }
    simpl. split; [exact Hout | reflexivity].
Qed.

Lemma transforms_frame_witness :
  (exists h' out,
      Obj.adjust_timeline_for_deletion Obj.abc_heap 1%positive 6 8 = Some (h', out)
      /\ Obj.dicts h' !! 9%positive = Obj.dicts Obj.abc_heap !! 9%positive
      /\ Obj.lists h' !! 1%positive = Obj.lists Obj.abc_heap !! 1%positive)
  /\ (exists h' out,
      Obj.adjust_timeline_for_patch Obj.abc_heap 1%positive 5 10 7 = Some (h', out)
      /\ Obj.dicts h' !! 9%positive = Obj.dicts Obj.abc_heap !! 9%positive).
Proof.
  assert (Htl : Obj.lists Obj.abc_heap !! 1%positive
                = Some [1%positive; 2%positive; 3%positive]) by reflexivity.
  assert (Hread : Obj.read_timeline Obj.abc_heap 1%positive = Some abc) by reflexivity.
  assert (Hnew : 9%positive ∉ [1%positive; 2%positive; 3%positive]).
  { rewrite !not_elem_of_cons. repeat split; (discriminate || apply not_elem_of_nil). }
  destruct (transforms_frame Obj.abc_heap 1%positive _ abc Htl Hread) as [Hdel Hpatch].
  split.
  - destruct (Hdel 6 8) as (h' & out & Hcall & Hd & Hl).
    exists h', out. split; [exact Hcall|]. split; [apply Hd, Hnew|].
    apply Hl. eexists. exact Htl.
  - destruct (Hpatch 5 10 7) as (h' & out & Hcall & Hd & _).
    exists h', out. split; [exact Hcall | apply Hd, Hnew].
Defined.

(** ** The sentence merger: what it builds from well-formed fragments *)

Lemma chain_from_weaken (lo lo' : Q) (tl : timeline) :
  lo' <= lo -> chain_from lo tl -> chain_from lo' tl.
Proof. destruct tl; simpl; [trivial|]. intros Hlo (H1 & H2 & H3). repeat split; trivial; lra. Qed.

Lemma chain_from_inv (lo : Q) (tl : timeline) :
  0 <= lo -> chain_from lo tl -> timeline_inv tl.
Proof.
  revert lo. induction tl as [|s r IH]; intros lo Hlo; simpl.
  - intros _. split; [constructor | exact I].
  - intros (H1 & H2 & H3).
    destruct (IH (end_ s)) as [Hok Hno]; [lra | assumption |].
    split.
    + constructor; [split; lra | assumption].
    + destruct r as [|b r']; [exact I|]. simpl in H3. split; [tauto | exact Hno].
Qed.

Lemma inv_chain_from (tl : timeline) : timeline_inv tl -> chain_from 0 tl.
Proof.
  intros [Hok Hno].
  assert (Hgen : forall lo, (forall s, head tl = Some s -> lo <= start s) -> chain_from lo tl).
  { induction Hok as [|s r [H0 Hlt] Hr IH]; intros lo Hlo; simpl; [exact I|].
    split; [apply Hlo; reflexivity|]. split; [assumption|].
    apply IH.
    - destruct r; simpl in *; tauto.
    - intros b Hb. destruct r as [|b' r']; simpl in *; [discriminate|].
      injection Hb as ->. tauto. }
  apply Hgen. intros s Hs. destruct Hok as [|s' r [H0 _] _]; simpl in Hs; [discriminate|].
  injection Hs as ->. exact H0.
Qed.

(** A change in the middle of the list that keeps the chain from there on
    keeps the whole chain. *)
Lemma chain_from_middle (l1 A B l2 : timeline) :
  (forall lo, chain_from lo (A ++ l2) -> chain_from lo (B ++ l2)) ->
  forall lo, chain_from lo (l1 ++ A ++ l2) -> chain_from lo (l1 ++ B ++ l2).
Proof.
  intros Hmid. induction l1 as [|s r IH]; intros lo; simpl; [apply Hmid|].
  intros (H1 & H2 & H3). repeat split; trivial. apply IH, H3.
Qed.

Lemma chain_merge_loop (dur : Q) (raw : list segment) :
  forall (buffer : option segment) (merged : list segment),
    chain_from 0 (merged ++ option_list buffer ++ raw) ->
    chain_from 0 (merge_loop dur raw buffer merged).
Proof.
  induction raw as [|item rest IH]; intros buffer merged Hch; simpl.
  - rewrite app_nil_r in Hch. destruct buffer; simpl in Hch;
      [exact Hch | rewrite app_nil_r in Hch; exact Hch].
  - assert (Hdrop : chain_from 0 (merged ++ option_list buffer ++ rest)).
    { rewrite app_assoc. rewrite app_assoc in Hch.
      apply (chain_from_middle _ [item] [] rest); [|exact Hch].
      simpl. intros lo (H1 & H2 & H3). eapply chain_from_weaken; [|exact H3]. lra. }
    destruct (Qle_bool (end_ item) (start item)) eqn:E1; [apply IH, Hdrop|].
    destruct (Qle_bool dur (start item)) eqn:E2; [apply IH, Hdrop|].
    set (item' := if Qltb dur (end_ item) then set_end dur item else item).
    assert (Hitem : start item' = start item /\ start item < end_ item'
                    /\ end_ item' <= end_ item).
    { subst item'. destruct (Qltb dur (end_ item)) eqn:E3; simpl; qcmp;
        repeat split; (reflexivity || lra). }
    destruct Hitem as (Hst & Hlt & Hend).
    set (buffer' := match buffer with
                    | Some b => _
                    | None => item'
                    end).
    assert (Hnew : chain_from 0 (merged ++ [buffer'] ++ rest)).
    { subst buffer'. destruct buffer as [b|]; simpl in Hch |- *.
      - apply (chain_from_middle merged [b; item] [_] rest); [|exact Hch].
        simpl. intros lo (H1 & H2 & H3 & H4 & H5). repeat split; try lra.
        eapply chain_from_weaken; [|exact H5]. lra.
      - apply (chain_from_middle merged [item] [_] rest); [|exact Hch].
        simpl. intros lo (H1 & H2 & H3). rewrite Hst. repeat split; try lra.
        eapply chain_from_weaken; [|exact H3]. lra. }
    destruct (ends_sentence (strip (text buffer'))).
    + apply IH. simpl. rewrite <- app_assoc. exact Hnew.
    + apply IH. exact Hnew.
Qed.

(** X7: from fragments that satisfy the ordering invariant themselves, the
    merger builds a timeline that satisfies it, whatever the duration. *)
Theorem merger_builds_ordered_timeline (raw_data : list segment) (real_duration : Q) :
  timeline_inv raw_data ->
  timeline_inv (merge_fragments raw_data real_duration).
Proof.
  intros Hinv. unfold merge_fragments.
  apply (chain_from_inv 0); [lra|].
  apply chain_merge_loop. simpl. apply inv_chain_from, Hinv.
Qed.

Lemma merger_builds_ordered_timeline_witness :
  timeline_inv (merge_fragments [ Segment 0 2 (pys "Hello"); Segment 2 4.5 (pys "world.") ] 5).
Proof.
  apply merger_builds_ordered_timeline.
  apply timeline_invb_ok. vm_compute. reflexivity.
Defined.

Lemma merge_loop_whole_sentences (dur : Q) (raw : list segment) :
  Forall (whole_sentence dur) raw ->
  forall merged, merge_loop dur raw None merged = merged ++ raw.
Proof.
  induction 1 as [|item rest (Hlt & Hend & Hs) Hrest IH]; intros merged; simpl.
  - rewrite app_nil_r. reflexivity.
  - destruct (Qle_bool (end_ item) (start item)) eqn:E1; [qcmp; lra|].
    destruct (Qle_bool dur (start item)) eqn:E2; [qcmp; lra|].
    destruct (Qltb dur (end_ item)) eqn:E3; [qcmp; lra|].
    rewrite Hs, IH, <- app_assoc. reflexivity.
Qed.

(** X8: fragments that are already whole sentences within the audio come
    out of the merger as they went in. *)
Theorem merger_passes_whole_sentences (raw_data : list segment) (real_duration : Q) :
  Forall (whole_sentence real_duration) raw_data ->
  merge_fragments raw_data real_duration = raw_data.
Proof.
  intros Hraw. unfold merge_fragments.
  rewrite (merge_loop_whole_sentences _ _ Hraw). reflexivity.
Qed.

Lemma merger_passes_whole_sentences_witness :
  merge_fragments [ Segment 0 2 (pys "Hello."); Segment 2 4.5 (pys "World!") ] 5
  = [ Segment 0 2 (pys "Hello."); Segment 2 4.5 (pys "World!") ].
Proof.
  apply merger_passes_whole_sentences.
  repeat constructor; simpl; (lra || reflexivity).
Defined.

(** ** The sentence merger: what becomes of the text *)

Lemma strip_trimmed (t : pystr) : no_outer_whitespace t -> strip t = t.
Proof.
  intros [Hhd Hlast]. unfold strip. rewrite (lstrip_id t Hhd). apply rstrip_id, Hlast.
Qed.

Lemma trimmed_join (a b : pystr) :
  trimmed_text a -> trimmed_text b -> trimmed_text (a ++ [space] ++ b).
Proof.
  intros [Ha [Hah Hal]] [Hb [Hbh Hbl]]. split; [destruct a; discriminate|]. split.
  - intros c Hc. apply Hah. destruct a; [contradiction | exact Hc].
  - intros c Hc. apply Hbl.
    rewrite app_assoc, last_app in Hc. destruct (last b) eqn:Eb; [exact Hc|].
    apply last_None in Eb. contradiction.
Qed.

Lemma join_sp_cons (t : pystr) (rest : list pystr) :
  rest <> [] -> join_sp (t :: rest) = t ++ [space] ++ join_sp rest.
Proof. destruct rest; [contradiction | reflexivity]. Qed.

(** Two texts joined by a space count as the two texts. *)
Lemma join_sp_fuse (l1 l2 : list pystr) (a b : pystr) :
  join_sp (l1 ++ (a ++ space :: b) :: l2) = join_sp (l1 ++ a :: b :: l2).
Proof.
  induction l1 as [|t r IH].
  - simpl. destruct l2; [reflexivity|]. rewrite <- !app_assoc. reflexivity.
  - change (join_sp (t :: (r ++ (a ++ space :: b) :: l2))
            = join_sp (t :: (r ++ a :: b :: l2))).
    rewrite !join_sp_cons by (destruct r; discriminate).
    rewrite IH. reflexivity.
Qed.

Lemma filter_kept_cons (dur : Q) (item : segment) (rest : list segment) :
  filter (fun s => fragment_kept dur s = true) (item :: rest)
  = if fragment_kept dur item
    then item :: filter (fun s => fragment_kept dur s = true) rest
    else filter (fun s => fragment_kept dur s = true) rest.
Proof.
  destruct (fragment_kept dur item) eqn:E.
  - rewrite filter_cons_True by assumption. reflexivity.
  - rewrite filter_cons_False; [reflexivity|]. rewrite E. discriminate.
Qed.

Lemma merge_loop_texts (dur : Q) (raw : list segment) :
  Forall (fun s => trimmed_text (text s)) raw ->
  forall (buffer : option segment) (merged : list segment),
    (forall b, buffer = Some b -> trimmed_text (text b)) ->
    join_sp (map text (merge_loop dur raw buffer merged))
    = join_sp (map text merged ++ map text (option_list buffer)
               ++ map text (filter (fun s => fragment_kept dur s = true) raw)).
Proof.
  induction 1 as [|item rest Hitem Hrest IH]; intros buffer merged Hbuf.
  - simpl. rewrite app_nil_r. destruct buffer; simpl; [rewrite map_app|rewrite app_nil_r];
      reflexivity.
  - rewrite filter_kept_cons. unfold fragment_kept. simpl.
    destruct (Qle_bool (end_ item) (start item)) eqn:E1; simpl; [apply IH, Hbuf|].
    destruct (Qle_bool dur (start item)) eqn:E2; simpl; [apply IH, Hbuf|].
    set (item' := if Qltb dur (end_ item) then set_end dur item else item).
    assert (Htext : text item' = text item).
    { subst item'. destruct (Qltb dur (end_ item)); reflexivity. }
    set (buffer' := match buffer with
                    | Some b => _
                    | None => item'
                    end).
    assert (Hnew : trimmed_text (text buffer')
                   /\ join_sp (map text merged ++ [text buffer']
                               ++ map text (filter (fun s => fragment_kept dur s = true) rest))
                      = join_sp (map text merged ++ map text (option_list buffer)
                                 ++ text item
                                    :: map text (filter (fun s => fragment_kept dur s = true)
                                                   rest))).
    { subst buffer'. destruct buffer as [b|]; simpl.
      - specialize (Hbuf b eq_refl). rewrite Htext.
        rewrite (strip_trimmed (text b)) by apply Hbuf.
        rewrite (strip_trimmed (text item)) by apply Hitem.
        split; [apply (trimmed_join _ _ Hbuf Hitem)|].
        apply (join_sp_fuse (map text merged) _ (text b) (text item)).
      - rewrite Htext. split; [exact Hitem | reflexivity]. }
    destruct Hnew as [Htrim Hjoin].
    destruct (ends_sentence (strip (text buffer'))).
    + rewrite IH by discriminate. simpl. rewrite map_app, <- app_assoc. exact Hjoin.
    + rewrite IH by (intros b [= <-]; exact Htrim). exact Hjoin.
Qed.

(** X9: the merger loses no text: when every fragment's text is non-empty
    and has no whitespace at its ends, the texts of the output joined by
    spaces are the texts of the fragments it keeps joined by spaces. *)
Theorem merger_keeps_text (raw_data : list segment) (real_duration : Q) :
  Forall (fun s => trimmed_text (text s)) raw_data ->
  join_sp (map text (merge_fragments raw_data real_duration))
  = join_sp (map text (filter (fun s => fragment_kept real_duration s = true) raw_data)).
Proof.
  intros Hraw. unfold merge_fragments.
  rewrite (merge_loop_texts _ _ Hraw None []) by discriminate. reflexivity.
Qed.

Lemma merger_keeps_text_witness :
  join_sp (map text (merge_fragments
                       [ Segment 0 2 (pys "Hello"); Segment 3 3 (pys "lost");
                         Segment 2 4.5 (pys "world."); Segment 5 6 (pys "Bye") ] 7))
  = pys "Hello world. Bye".
Proof.
  rewrite merger_keeps_text; [vm_compute; reflexivity|].
  repeat constructor; simpl; try discriminate; intros c [= <-]; reflexivity.
Defined.

Lemma merge_loop_empty (dur : Q) (raw : list segment) :
  forall (buffer : option segment) (merged : list segment),
    merge_loop dur raw buffer merged = []
    <-> buffer = None /\ merged = [] /\ Forall (fun s => fragment_kept dur s = false) raw.
Proof.
  induction raw as [|item rest IH]; intros buffer merged; simpl.
  - destruct buffer as [b|].
    + split; [intros H; apply app_eq_nil in H as [_ H]; discriminate | intros [H _]; discriminate].
    + split; [intros ->; repeat split; constructor | tauto].
  - rewrite Forall_cons. unfold fragment_kept at 1.
    destruct (Qle_bool (end_ item) (start item)) eqn:E1; simpl; [rewrite IH; tauto|].
    destruct (Qle_bool dur (start item)) eqn:E2; simpl; [rewrite IH; tauto|].
    match goal with
    | |- context [if ?c then _ else _] => destruct c
    end; rewrite IH.
    + split; [intros (_ & H & _); apply app_eq_nil in H as [_ H]; discriminate
             | intros (_ & _ & H & _); discriminate].
    + split; [intros (H & _); discriminate | intros (_ & _ & H & _); discriminate].
Qed.

(** X10: the merger gives the empty timeline exactly when it keeps no
    fragment: every fragment starts at or after its end or at or after the
    end of the audio. *)
Theorem merger_empty_iff_nothing_kept (raw_data : list segment) (real_duration : Q) :
  merge_fragments raw_data real_duration = []
  <-> Forall (fun s => fragment_kept real_duration s = false) raw_data.
Proof.
  unfold merge_fragments. rewrite merge_loop_empty. tauto.
Qed.

(** ** The strict text normaliser: what it keeps *)

Lemma letters_cons_allowed (c : codepoint) (s : pystr) :
  allowed c = true -> letters (c :: s) = c :: letters s.
Proof. intros H. unfold letters. apply filter_cons_True, H. Qed.

Lemma letters_cons_other (c : codepoint) (s : pystr) :
  allowed c = false -> letters (c :: s) = letters s.
Proof. intros H. unfold letters. apply filter_cons_False. rewrite H. discriminate. Qed.

Lemma isspace_not_allowed (c : codepoint) : py_isspace c = true -> allowed c = false.
Proof.
  intros Hs. destruct (allowed c) eqn:Ha; [|reflexivity].
  rewrite (allowed_not_space c Ha) in Hs. discriminate.
Qed.

Lemma letters_sub_not_allowed (s : pystr) : letters (sub_not_allowed s) = letters s.
Proof.
  unfold sub_not_allowed. induction s as [|c r IH]; simpl; [reflexivity|].
  destruct (allowed c) eqn:Ha.
  - rewrite !letters_cons_allowed by assumption. f_equal. exact IH.
  - rewrite !letters_cons_other by (assumption || reflexivity). exact IH.
Qed.

Lemma letters_sub_runs (s : pystr) (in_run : bool) : letters (sub_runs in_run s) = letters s.
Proof.
  revert in_run. induction s as [|c r IH]; intros in_run; simpl; [reflexivity|].
  destruct (py_isspace c) eqn:Hs.
  - rewrite (letters_cons_other c) by apply isspace_not_allowed, Hs.
    destruct in_run; [apply IH|].
    rewrite letters_cons_other by reflexivity. apply IH.
  - destruct (allowed c) eqn:Ha.
    + rewrite !letters_cons_allowed by assumption. f_equal. apply IH.
    + rewrite !letters_cons_other by assumption. apply IH.
Qed.

Lemma letters_lstrip (s : pystr) : letters (lstrip s) = letters s.
Proof.
  induction s as [|c r IH]; simpl; [reflexivity|].
  destruct (py_isspace c) eqn:Hs; [|reflexivity].
  rewrite (letters_cons_other c) by apply isspace_not_allowed, Hs. exact IH.
Qed.

Lemma letters_strip (s : pystr) : letters (strip s) = letters s.
Proof.
  unfold strip, rstrip, letters.
  rewrite filter_reverse. fold (letters (lstrip (reverse (lstrip s)))).
  rewrite letters_lstrip. unfold letters.
  rewrite filter_reverse, reverse_involutive. apply letters_lstrip.
Qed.

(** X11: normalising drops or changes no Hangul syllable, letter or digit and
    keeps their order: the allowed characters of the output are the allowed
    characters of the input. *)
Theorem normalize_keeps_letters (text : pystr) :
  letters (normalize_text_strict text) = letters text.
Proof.
  unfold normalize_text_strict, sub_whitespace.
  rewrite letters_strip, letters_sub_runs. apply letters_sub_not_allowed.
Qed.

Lemma letters_nil_iff (s : pystr) :
  letters s = [] <-> Forall (fun c => allowed c = false) s.
Proof.
  induction s as [|c r IH].
  - split; [constructor | reflexivity].
  - rewrite Forall_cons. destruct (allowed c) eqn:Ha.
    + rewrite letters_cons_allowed by assumption.
      split; [discriminate | intros [H _]; discriminate].
    + rewrite letters_cons_other by assumption. rewrite IH. tauto.
Qed.

(** X12: a text normalises to the empty text exactly when it holds no Hangul
    syllable, letter or digit. *)
Theorem normalize_empty_iff_no_letter (text : pystr) :
  normalize_text_strict text = [] <-> Forall (fun c => allowed c = false) text.
Proof.
  rewrite <- letters_nil_iff.
  pose proof (letters_sub_runs (sub_not_allowed text) false) as Hruns.
  pose proof (letters_strip (sub_whitespace (sub_not_allowed text))) as Hstrip.
  pose proof (letters_sub_not_allowed text) as Hsub.
  assert (Hkeep : letters (normalize_text_strict text) = letters text).
  { unfold normalize_text_strict. unfold sub_whitespace in *. congruence. }
  split.
  - intros Hnil. rewrite <- Hkeep, Hnil. reflexivity.
  - intros Hnone. rewrite <- Hkeep in Hnone.
    destruct (normalize_canonical text) as (Hw & _ & Hhd & _).
    destruct (normalize_text_strict text) as [|c r]; [reflexivity|].
    apply Forall_cons in Hw as [[Ha| ->] _].
    + rewrite letters_cons_allowed in Hnone by assumption. discriminate.
    + specialize (Hhd space eq_refl). discriminate.
Qed.

(** ** Text tools: replacing one character, stripping *)

Lemma replace_one_char (a b : codepoint) (s : pystr) :
  py_replace [a] [b] s = map (fun c => if (a =? c)%N then b else c) s.
Proof.
  unfold py_replace. induction s as [|c r IH]; simpl; [reflexivity|].
  rewrite andb_true_r. destruct (a =? c)%N; simpl; rewrite IH; reflexivity.
Qed.

Lemma Forall_lstrip (P : codepoint -> Prop) (s : pystr) :
  Forall P s -> Forall P (lstrip s).
Proof.
  induction 1 as [|c r Hc Hr IH]; simpl; [constructor|].
  destruct (py_isspace c); [exact IH | constructor; assumption].
Qed.

Lemma Forall_strip (P : codepoint -> Prop) (s : pystr) :
  Forall P s -> Forall P (strip s).
Proof.
  intros H. unfold strip, rstrip.
  apply Forall_reverse, Forall_lstrip, Forall_reverse, Forall_lstrip, H.
Qed.

Lemma length_lstrip (s : pystr) : (length (lstrip s) <= length s)%nat.
Proof.
  induction s as [|c r IH]; simpl; [lia|]. destruct (py_isspace c); simpl; lia.
Qed.

Lemma length_strip (s : pystr) : (length (strip s) <= length s)%nat.
Proof.
  unfold strip, rstrip. rewrite length_reverse.
  etransitivity; [apply length_lstrip|]. rewrite length_reverse. apply length_lstrip.
Qed.

Lemma Forall_remove_chars (cls : codepoint -> bool) (s : pystr) :
  Forall (fun c => cls c = false) (remove_chars cls s).
Proof.
  unfold remove_chars. induction s as [|c r IH]; simpl; [constructor|].
  destruct (cls c) eqn:E; simpl; [exact IH | constructor; assumption].
Qed.

Lemma Forall_remove_chars_keeps (P : codepoint -> Prop) (cls : codepoint -> bool) (s : pystr) :
  Forall P s -> Forall P (remove_chars cls s).
Proof.
  unfold remove_chars. induction 1 as [|c r Hc Hr IH]; simpl; [constructor|].
  destruct (cls c); simpl; [exact IH | constructor; assumption].
Qed.

Lemma remove_chars_id (cls : codepoint -> bool) (s : pystr) :
  Forall (fun c => cls c = false) s -> remove_chars cls s = s.
Proof.
  unfold remove_chars. induction 1 as [|c r Hc Hr IH]; simpl; [reflexivity|].
  rewrite Hc. simpl. f_equal. exact IH.
Qed.

(** ** [sanitize_filename] *)

(** X13: a sanitised name is at most 50 characters long and holds neither a
    space nor one of the characters that a file name may not hold. *)
Theorem sanitize_filename_safe (name : pystr) :
  (length (sanitize_filename name) <= 50)%nat
  /\ Forall filename_char (sanitize_filename name).
Proof.
  unfold sanitize_filename. split.
  - rewrite length_take. lia.
  - apply Forall_take, Forall_strip. rewrite replace_one_char.
    apply Forall_map.
    eapply Forall_impl; [apply (Forall_remove_chars filename_forbidden)|].
    intros c Hc. cbv beta in *. unfold filename_char.
    destruct (space =? c)%N eqn:E.
    + split; [reflexivity | discriminate].
    + split; [exact Hc|]. intros ->. discriminate.
Qed.

(** X14: a name of at most 50 characters that holds no forbidden character,
    no space and no whitespace at its ends is returned as it is. *)
Theorem sanitize_filename_keeps_clean_name (name : pystr) :
  (length name <= 50)%nat ->
  Forall filename_char name ->
  no_outer_whitespace name ->
  sanitize_filename name = name.
Proof.
  intros Hlen Hchars Hends. unfold sanitize_filename.
  rewrite remove_chars_id by (eapply Forall_impl; [exact Hchars|]; intros c [H _]; exact H).
  rewrite replace_one_char.
  assert (Hmap : map (fun c => if (space =? c)%N then underscore else c) name = name).
  { clear Hlen Hends. induction Hchars as [|c r [_ Hc] Hr IH]; cbn [map]; [reflexivity|].
    rewrite IH. destruct (space =? c)%N eqn:E; [|reflexivity].
    apply N.eqb_eq in E. congruence. }
  rewrite Hmap, (strip_trimmed name Hends). apply take_ge. lia.
Qed.

Lemma sanitize_filename_keeps_clean_name_witness :
  sanitize_filename (pys "01_Chapter_One") = pys "01_Chapter_One".
Proof.
  apply sanitize_filename_keeps_clean_name.
  - simpl. lia.
  - repeat constructor; simpl; discriminate.
  - split; intros c [= <-]; reflexivity.
Defined.

(** ** [process_text_for_playground]: the size of the chunks *)

Lemma flush_chunk_sizes (bound : nat) (current : pystr) (chunks : list pystr) :
  (length current <= bound)%nat ->
  Forall (fun c => (length c <= bound)%nat) chunks ->
  Forall (fun c => (length c <= bound)%nat) (flush_chunk current chunks).
Proof.
  intros Hc Hch. unfold flush_chunk. destruct current; [assumption|].
  apply Forall_app. split; [assumption|]. constructor; [|constructor].
  etransitivity; [apply length_strip | exact Hc].
Qed.

Lemma chunk_loop_sizes (max_chars : nat) (sentences : list pystr) :
  Forall (fun s => (length s <= max_chars)%nat) sentences ->
  forall (current : pystr) (chunks : list pystr),
    (length current <= max_chars + 1)%nat ->
    Forall (fun c => (length c <= max_chars + 1)%nat) chunks ->
    Forall (fun c => (length c <= max_chars + 1)%nat)
      (chunk_loop max_chars sentences current chunks).
Proof.
  induction 1 as [|sentence rest Hs Hrest IH]; intros current chunks Hc Hch; simpl.
  - apply flush_chunk_sizes; assumption.
  - destruct sentence as [|c0 s0]; [apply IH; assumption|].
    destruct (max_chars <? length current + length (c0 :: s0))%nat eqn:E.
    + apply IH; [lia | apply flush_chunk_sizes; assumption].
    + apply Nat.ltb_ge in E. destruct current as [|c1 cur].
      * apply IH; [lia | assumption].
      * apply IH; [|assumption]. rewrite !length_app. simpl in *. lia.
Qed.

(** X15: when no sentence of the cleaned text is longer than [max_chars], no
    chunk is longer than [max_chars + 1]: the space that joins two sentences
    is not counted when the loop decides whether a sentence still fits. *)
Theorem chunks_within_limit_plus_one (text : pystr) (max_chars : nat) :
  Forall (fun s => (length s <= max_chars)%nat) (split_sentences (clean_text text)) ->
  Forall (fun c => (length c <= max_chars + 1)%nat)
    (process_text_for_playground text max_chars).
Proof.
  intros Hs. unfold process_text_for_playground, chunk_sentences.
  apply chunk_loop_sizes; [exact Hs | simpl; lia | constructor].
Qed.

Lemma chunks_within_limit_plus_one_witness :
  Forall (fun c => (length c <= 5 + 1)%nat) (process_text_for_playground (pys "ab. c.") 5).
Proof.
  apply chunks_within_limit_plus_one.
  vm_compute. repeat constructor.
Defined.

(** The limit is passed by one: two sentences of 3 and 2 characters fit a
    limit of 5 and make a chunk of 6. *)
Example chunk_of_limit_plus_one :
  process_text_for_playground (pys "ab. c.") 5 = [ pys "ab. c." ].
Proof. vm_compute. reflexivity. Qed.

(** ** [process_text_for_playground]: the cleaned text and its sentences *)

Lemma sub_runs_tidy (s : pystr) :
  forall in_run,
    Forall ws_is_space (sub_runs in_run s)
    /\ single_spaced (sub_runs in_run s)
    /\ (in_run = true -> forall c, head (sub_runs in_run s) = Some c -> py_isspace c = false).
Proof.
  induction s as [|c r IH]; intros in_run; simpl.
  - repeat split; [constructor | discriminate].
  - destruct (py_isspace c) eqn:Hs.
    + destruct (IH true) as (Hw & Hss & Hhd). destruct in_run.
      * repeat split; auto.
      * repeat split; [constructor; [intros _; reflexivity | assumption] | | discriminate].
        destruct (sub_runs true r) as [|b r'] eqn:Hout; simpl; [trivial|].
        split; [|assumption]. intros [_ ->].
        specialize (Hhd eq_refl space eq_refl). discriminate.
    + destruct (IH false) as (Hw & Hss & _).
      repeat split.
      * constructor; [|assumption]. intros Hc. rewrite Hs in Hc. discriminate.
      * destruct (sub_runs false r) as [|b r'] eqn:Hout; simpl; [trivial|].
        split; [|assumption]. intros [-> _]. discriminate.
      * intros _ c' [= <-]. assumption.
Qed.

Lemma Forall_sub_runs (P : codepoint -> Prop) (s : pystr) (in_run : bool) :
  P space -> Forall P s -> Forall P (sub_runs in_run s).
Proof.
  intros Hsp Hs. revert in_run. induction Hs as [|c r Hc Hr IH]; intros in_run; simpl.
  - constructor.
  - destruct (py_isspace c); [destruct in_run|]; try constructor; auto.
Qed.

Lemma strip_tidy (s : pystr) :
  Forall ws_is_space s -> single_spaced s -> tidy (strip s).
Proof.
  intros Hw Hss. unfold tidy. split; [apply Forall_strip, Hw|].
  unfold strip.
  destruct (lstrip_suffix s) as [l1 H1].
  destruct (rstrip_prefix (lstrip s)) as [l2 H2].
  rewrite H1 in Hss. apply single_spaced_app_r in Hss.
  rewrite H2 in Hss. apply single_spaced_app_l in Hss.
  split; [assumption|]. split.
  - intros c Hc. apply (lstrip_head s). rewrite H2. apply head_prefix, Hc.
  - apply rstrip_last.
Qed.

Lemma replace_ellipsis_char (s : pystr) :
  Forall (fun c => c <> 0x2026%N) (py_replace [0x2026%N] [44%N] s).
Proof.
  rewrite replace_one_char. apply Forall_map. apply Forall_true.
  intros c. cbv beta. destruct (0x2026 =? c)%N eqn:E; [discriminate|].
  apply N.eqb_neq in E. congruence.
Qed.

Lemma clean_text_tidy (text : pystr) : tidy (clean_text text).
Proof.
  unfold clean_text, sub_whitespace.
  match goal with
  | |- tidy (strip (sub_runs false ?t)) =>
      destruct (sub_runs_tidy t false) as (Hw & Hss & _)
  end.
  apply strip_tidy; assumption.
Qed.

Lemma clean_text_plain (text : pystr) : Forall plain_char (clean_text text).
Proof.
  unfold clean_text, sub_whitespace.
  apply Forall_strip, Forall_sub_runs; [split; [reflexivity | discriminate]|].
  apply Forall_and_inv.
  - apply Forall_remove_chars.
  - apply Forall_remove_chars_keeps, replace_ellipsis_char.
Qed.

(** X16: the cleaned text has no whitespace but single spaces between words
    (so no line break and no tab) and none at its ends, and it holds no star,
    hash, at sign or ellipsis character. *)
Theorem clean_text_shape (text : pystr) :
  tidy (clean_text text) /\ Forall plain_char (clean_text text).
Proof. split; [apply clean_text_tidy | apply clean_text_plain]. Qed.

Lemma split_go_nonempty (s : pystr) (pt sep : bool) : split_go pt sep s <> [].
Proof.
  revert pt sep. induction s as [|c r IH]; intros pt sep; simpl; [discriminate|].
  destruct (py_isspace c && sep); [apply IH|].
  destruct (py_isspace c && pt); [discriminate|].
  destruct (split_go (is_terminator c) false r); discriminate.
Qed.

(** After a run that was left out, or at a character that is no whitespace,
    the flags do not matter. *)
Lemma split_go_flags (s : pystr) (pt sep pt' sep' : bool) :
  (forall c, head s = Some c -> py_isspace c = false) ->
  split_go pt sep s = split_go pt' sep' s.
Proof.
  destruct s as [|c r]; simpl; [reflexivity|].
  intros H. rewrite (H c eq_refl). reflexivity.
Qed.

Lemma join_sp_push (c : codepoint) (p : pystr) (ps : list pystr) :
  join_sp ((c :: p) :: ps) = c :: join_sp (p :: ps).
Proof. destruct ps; reflexivity. Qed.

Lemma tidy_rest_tail (c : codepoint) (r : pystr) : tidy_rest (c :: r) -> tidy_rest r.
Proof.
  intros (Hw & Hss & Hl). apply Forall_cons in Hw as [_ Hw].
  split; [assumption|]. split.
  - destruct r; simpl in *; tauto.
  - intros d Hd. apply Hl. destruct r; [discriminate | exact Hd].
Qed.

Lemma tidy_rest_after_space (c : codepoint) (r : pystr) :
  tidy_rest (c :: r) -> py_isspace c = true ->
  c = space /\ exists d r', r = d :: r' /\ py_isspace d = false.
Proof.
  intros (Hw & Hss & Hl) Hc. apply Forall_cons in Hw as [Hcw Hw].
  split; [apply Hcw, Hc|]. destruct r as [|d r'].
  - specialize (Hl c eq_refl). congruence.
  - exists d, r'. split; [reflexivity|].
    destruct (py_isspace d) eqn:Hd; [|reflexivity].
    apply Forall_cons in Hw as [Hdw _]. simpl in Hss. destruct Hss as [Hne _].
    exfalso. apply Hne. split; [apply Hcw, Hc | apply Hdw, Hd].
Qed.

Lemma split_go_join (s : pystr) :
  tidy_rest s -> forall pt, join_sp (split_go pt false s) = s.
Proof.
  induction s as [|c r IH]; intros Ht pt; simpl; [reflexivity|].
  rewrite andb_false_r.
  destruct (py_isspace c && pt) eqn:E.
  - apply andb_true_iff in E as [Hc _].
    destruct (tidy_rest_after_space c r Ht Hc) as (-> & d & r' & -> & Hd).
    rewrite (split_go_flags (d :: r') false true false false)
      by (intros x [= <-]; exact Hd).
    rewrite join_sp_cons by apply split_go_nonempty.
    rewrite (IH (tidy_rest_tail _ _ Ht)). reflexivity.
  - destruct (split_go (is_terminator c) false r) as [|p ps] eqn:Hsp.
    + exfalso. exact (split_go_nonempty _ _ _ Hsp).
    + rewrite join_sp_push, <- Hsp, (IH (tidy_rest_tail _ _ Ht)). reflexivity.
Qed.

Lemma terminator_not_space (c : codepoint) : is_terminator c = true -> py_isspace c = false.
Proof.
  unfold is_terminator. rewrite !orb_true_iff, !N.eqb_eq.
  intros [[-> | ->] | ->]; reflexivity.
Qed.

(** The pieces of what is left of a tidy text: the piece being read ends
    without whitespace and is empty only at the end of the text or at a
    cut; the pieces after it are trimmed texts. *)
Lemma split_go_pieces (s : pystr) :
  tidy_rest s ->
  forall pt, exists p ps,
    split_go pt false s = p :: ps
    /\ (p = [] -> s = [] \/ (pt = true /\ head s = Some space))
    /\ (forall c, last p = Some c -> py_isspace c = false)
    /\ (forall c, head s = Some c -> py_isspace c = false -> head p = Some c)
    /\ Forall trimmed_text ps.
Proof.
  induction s as [|c r IH]; intros Ht pt; simpl.
  - exists [], []. repeat split; auto; discriminate.
  - rewrite andb_false_r.
    destruct (py_isspace c && pt) eqn:E.
    + apply andb_true_iff in E as [Hc ->].
      destruct (tidy_rest_after_space c r Ht Hc) as (-> & d & r' & -> & Hd).
      rewrite (split_go_flags (d :: r') false true false false)
        by (intros x [= <-]; exact Hd).
      destruct (IH (tidy_rest_tail _ _ Ht) false) as (p & ps & Hsp & Hnil & Hl & Hh & Hps).
      rewrite Hsp. exists [], (p :: ps).
      split; [reflexivity|]. split; [intros _; right; split; reflexivity|].
      split; [discriminate|]. split.
      { intros x [= <-] Hx. rewrite Hc in Hx. discriminate. }
      constructor; [|exact Hps]. split; [|split].
      * intros ->. destruct (Hnil eq_refl) as [H | [H _]]; discriminate.
      * intros x Hx. rewrite (Hh d eq_refl Hd) in Hx. injection Hx as <-. exact Hd.
      * exact Hl.
    + destruct (IH (tidy_rest_tail _ _ Ht) (is_terminator c))
        as (p & ps & Hsp & Hnil & Hl & Hh & Hps).
      rewrite Hsp. exists (c :: p), ps.
      split; [reflexivity|]. split; [discriminate|]. split; [|split].
      * intros x Hx. destruct p as [|c1 p1]; [|apply Hl; exact Hx].
        simpl in Hx. injection Hx as <-.
        destruct (Hnil eq_refl) as [-> | [Hterm _]].
        -- destruct Ht as (_ & _ & Hlast). apply Hlast. reflexivity.
        -- apply terminator_not_space, Hterm.
      * intros x [= <-] _. reflexivity.
      * exact Hps.
Qed.

Lemma split_sentences_tidy (s : pystr) :
  tidy s -> s <> [] ->
  Forall trimmed_text (split_sentences s) /\ join_sp (split_sentences s) = s.
Proof.
  intros (Hw & Hss & Hhd & Hl) Hne. unfold split_sentences.
  assert (Ht : tidy_rest s) by (repeat split; assumption).
  split; [|apply split_go_join, Ht].
  destruct (split_go_pieces s Ht false) as (p & ps & Hsp & Hnil & Hlast & Hh & Hps).
  rewrite Hsp. constructor; [|exact Hps].
  destruct s as [|c r]; [contradiction|].
  specialize (Hhd c eq_refl). specialize (Hh c eq_refl Hhd). split; [|split].
  - intros ->. discriminate.
  - intros x Hx. rewrite Hh in Hx. injection Hx as <-. exact Hhd.
  - exact Hlast.
Qed.

(** ** [process_text_for_playground]: what the chunks hold *)

Lemma flush_chunk_trimmed (current : pystr) (chunks : list pystr) :
  current = [] \/ trimmed_text current ->
  flush_chunk current chunks = chunks ++ pending current.
Proof.
  intros Hc. unfold flush_chunk, pending. destruct current as [|c r].
  - rewrite app_nil_r. reflexivity.
  - destruct Hc as [Hc | [_ Hc]]; [discriminate|].
    rewrite (strip_trimmed _ Hc). reflexivity.
Qed.

Lemma pending_trimmed (current : pystr) :
  current = [] \/ trimmed_text current -> Forall trimmed_text (pending current).
Proof.
  intros [-> | H]; [constructor|].
  destruct current; simpl; [constructor | repeat constructor; apply H].
Qed.

Lemma chunk_loop_keeps (max_chars : nat) (sentences : list pystr) :
  Forall trimmed_text sentences ->
  forall (current : pystr) (chunks : list pystr),
    current = [] \/ trimmed_text current ->
    Forall trimmed_text chunks ->
    Forall trimmed_text (chunk_loop max_chars sentences current chunks)
    /\ join_sp (chunk_loop max_chars sentences current chunks)
       = join_sp (chunks ++ pending current ++ sentences).
Proof.
  induction 1 as [|sentence rest Hs Hrest IH]; intros current chunks Hc Hch; simpl.
  - rewrite app_nil_r, (flush_chunk_trimmed _ _ Hc). split; [|reflexivity].
    apply Forall_app. split; [assumption | apply pending_trimmed, Hc].
  - destruct sentence as [|c0 s0]; [destruct Hs as [Hs _]; contradiction|].
    destruct (max_chars <? length current + length (c0 :: s0))%nat.
    + rewrite (flush_chunk_trimmed _ _ Hc).
      destruct (IH (c0 :: s0) (chunks ++ pending current)) as [Ht Hj].
      { right. exact Hs. }
      { apply Forall_app. split; [assumption | apply pending_trimmed, Hc]. }
      split; [exact Ht|]. rewrite Hj, <- app_assoc. reflexivity.
    + destruct current as [|c1 cur].
      * destruct (IH (c0 :: s0) chunks) as [Ht Hj]; [right; exact Hs | assumption |].
        split; [exact Ht | exact Hj].
      * destruct Hc as [Hc | Hc]; [discriminate|].
        destruct (IH (c1 :: cur ++ space :: c0 :: s0) chunks) as [Ht Hj].
        { right. exact (trimmed_join _ _ Hc Hs). }
        { assumption. }
        split; [exact Ht|]. etransitivity; [exact Hj|].
        exact (join_sp_fuse chunks rest (c1 :: cur) (c0 :: s0)).
Qed.

(** X17: chunking loses and adds nothing: whatever the limit, the chunks
    joined by single spaces are the cleaned text. *)
Theorem chunks_join_to_clean_text (text : pystr) (max_chars : nat) :
  join_sp (process_text_for_playground text max_chars) = clean_text text.
Proof.
  unfold process_text_for_playground, chunk_sentences.
  pose proof (clean_text_tidy text) as Htidy.
  destruct (clean_text text) as [|c r] eqn:Hclean; [reflexivity|].
  destruct (split_sentences_tidy (c :: r) Htidy) as [Htrim Hjoin]; [discriminate|].
  destruct (chunk_loop_keeps max_chars _ Htrim [] []) as [_ Hj];
    [left; reflexivity | constructor |].
  rewrite Hj. exact Hjoin.
Qed.

(** X18: every chunk holds some text and has no whitespace at its ends; a
    text that cleans to nothing gives no chunk at all. *)
Theorem chunks_are_trimmed_texts (text : pystr) (max_chars : nat) :
  Forall trimmed_text (process_text_for_playground text max_chars)
  /\ (clean_text text = [] -> process_text_for_playground text max_chars = []).
Proof.
  unfold process_text_for_playground, chunk_sentences.
  pose proof (clean_text_tidy text) as Htidy.
  destruct (clean_text text) as [|c r] eqn:Hclean.
  - split; [constructor | reflexivity].
  - split; [|discriminate].
    destruct (split_sentences_tidy (c :: r) Htidy) as [Htrim _]; [discriminate|].
    apply (chunk_loop_keeps max_chars _ Htrim [] []); [left; reflexivity | constructor].
Qed.

Example chunks_of_a_marked_up_text :
  process_text_for_playground
    (pys "Hi (laugh) there...  *you*. Next [x] line! ok? <b>end</b> (open") 12
  = [ pys "Hi there, you."; pys "Next line!"; pys "ok? end (open" ].
Proof. vm_compute. reflexivity. Qed.

(** ** The text of the JSON list *)

Lemma find_char_first (c : codepoint) (pre r : pystr) :
  c ∉ pre -> find_char c (pre ++ c :: r) = Some (length pre).
Proof.
  induction pre as [|x pre IH]; simpl; intros Hpre.
  - rewrite N.eqb_refl. reflexivity.
  - apply not_elem_of_cons in Hpre as [Hne Hpre].
    destruct (x =? c)%N eqn:E; [apply N.eqb_eq in E; congruence|].
    rewrite (IH Hpre). reflexivity.
Qed.

Lemma rfind_char_none (c : codepoint) (s : pystr) : c ∉ s <-> rfind_char c s = None.
Proof.
  induction s as [|x r IH]; simpl.
  - split; [reflexivity | intros _; apply not_elem_of_nil].
  - rewrite not_elem_of_cons, IH. destruct (rfind_char c r).
    + split; [intros [_ H]; discriminate | discriminate].
    + destruct (x =? c)%N eqn:E.
      * apply N.eqb_eq in E. split; [intros [H _]; congruence | discriminate].
      * apply N.eqb_neq in E. split; [reflexivity | intros _; split; congruence].
Qed.

Lemma find_char_none (c : codepoint) (s : pystr) : c ∉ s <-> find_char c s = None.
Proof.
  induction s as [|x r IH]; simpl.
  - split; [reflexivity | intros _; apply not_elem_of_nil].
  - rewrite not_elem_of_cons, IH. destruct (x =? c)%N eqn:E.
    + apply N.eqb_eq in E. split; [intros [H _]; congruence | discriminate].
    + apply N.eqb_neq in E. destruct (find_char c r); simpl.
      * split; [intros [_ H]; discriminate | discriminate].
      * split; [reflexivity | intros _; split; congruence].
Qed.

Lemma rfind_char_last (c : codepoint) (l suf : pystr) :
  c ∉ suf -> rfind_char c (l ++ c :: suf) = Some (length l).
Proof.
  intros Hsuf. apply rfind_char_none in Hsuf.
  induction l as [|x l IH]; simpl.
  - rewrite Hsuf, N.eqb_refl. reflexivity.
  - rewrite IH. reflexivity.
Qed.

Lemma slice_middle (pre mid suf : list N) :
  slice (pre ++ mid ++ suf) (length pre) (length pre + length mid) = mid.
Proof.
  unfold slice. rewrite drop_app_length.
  replace (length pre + length mid - length pre)%nat with (length mid) by lia.
  apply take_app_length.
Qed.

(** X19: whatever is written around the list is dropped: when no opening
    square bracket comes before the list and no closing one after it, the
    text kept is the list with its brackets; and no text is kept exactly
    when the answer lacks an opening or a closing square bracket. *)
Theorem json_list_text_unwraps (raw_text : pystr) :
  (forall pre body suf,
      raw_text = pre ++ [91%N] ++ body ++ [93%N] ++ suf ->
      91%N ∉ pre -> 93%N ∉ suf ->
      json_list_text raw_text = Some ([91%N] ++ body ++ [93%N]))
  /\ (json_list_text raw_text = None <-> 91%N ∉ raw_text \/ 93%N ∉ raw_text).
Proof.
  split.
  - intros pre body suf -> Hpre Hsuf. unfold json_list_text. cbn [app].
    rewrite (find_char_first _ pre _ Hpre).
    assert (Hsplit : pre ++ 91%N :: body ++ 93%N :: suf
                     = (pre ++ 91%N :: body) ++ 93%N :: suf)
      by (rewrite <- app_assoc; reflexivity).
    rewrite Hsplit at 1. rewrite (rfind_char_last _ _ _ Hsuf). f_equal.
    rewrite <- (slice_middle pre (91%N :: body ++ [93%N]) suf) at 1.
    f_equal; [simpl; rewrite <- app_assoc; reflexivity|].
    rewrite !length_app. simpl. rewrite length_app. simpl. lia.
  - unfold json_list_text. rewrite find_char_none, rfind_char_none.
    destruct (find_char 91%N raw_text), (rfind_char 93%N raw_text);
      split; try discriminate; auto; intros [H | H]; discriminate.
Qed.

Lemma json_list_text_unwraps_witness :
  json_list_text (pys "Here it is: [1, [2], 3] done.") = Some (pys "[1, [2], 3]").
Proof.
  apply (proj1 (json_list_text_unwraps _) (pys "Here it is: ") (pys "1, [2], 3") (pys " done."));
    [reflexivity | |];
    simpl; rewrite !not_elem_of_cons; repeat split;
    (discriminate || apply not_elem_of_nil).
Defined.

(** ** The splice engine *)

Lemma py_int_nonneg (x : Q) : 0 <= x -> (0 <= py_int x)%Z.
Proof.
  intros Hx. unfold py_int. destruct (Qle_bool 0 x) eqn:E.
  - change 0%Z with (Qfloor 0). apply Qfloor_resp_le, Hx.
  - qcmp. lra.
Qed.

Lemma py_int_nonpos (x : Q) : x <= 0 -> (py_int x <= 0)%Z.
Proof.
  intros Hx. unfold py_int. destruct (Qle_bool 0 x) eqn:E.
  - change 0%Z with (Qfloor 0). apply Qfloor_resp_le, Hx.
  - change 0%Z with (Qceiling 0). apply Qceiling_resp_le, Hx.
Qed.

(** [int] keeps the order of its arguments. *)
Lemma py_int_mono (x y : Q) : x <= y -> (py_int x <= py_int y)%Z.
Proof.
  intros Hxy. destruct (Qlt_le_dec x 0) as [Hx|Hx], (Qlt_le_dec y 0) as [Hy|Hy].
  - unfold py_int.
    destruct (Qle_bool 0 x) eqn:E1; [qcmp; lra|].
    destruct (Qle_bool 0 y) eqn:E2; [qcmp; lra|].
    apply Qceiling_resp_le, Hxy.
  - etransitivity; [apply py_int_nonpos; lra | apply py_int_nonneg, Hy].
  - lra.
  - unfold py_int.
    destruct (Qle_bool 0 x) eqn:E1; [|qcmp; lra].
    destruct (Qle_bool 0 y) eqn:E2; [|qcmp; lra].
    apply Qfloor_resp_le, Hxy.
Qed.

Section SpliceEngineFacts.

Context {pydub : Pydub}.

Lemma delete_empty_or_reversed (b : bytes) (start_sec end_sec : Q) :
  end_sec <= start_sec -> delete_audio_range b start_sec end_sec = None.
Proof.
  intros Hrange. unfold delete_audio_range.
  destruct (negb (truthy (Some b))); [reflexivity|].
  destruct (from_wav b) as [original|]; [|reflexivity].
  assert (Hms : (py_int (end_sec * 1000) <= py_int (start_sec * 1000))%Z)
    by (apply py_int_mono; lra).
  destruct (_ <=? _)%Z eqn:E; [reflexivity|].
  apply Z.leb_gt in E.
  destruct (py_int (start_sec * 1000) <? 0)%Z eqn:E1,
           (len_ms original <? py_int (end_sec * 1000))%Z eqn:E2;
    rewrite ?Z.ltb_lt, ?Z.ltb_ge in *; lia.
Qed.

(** X20: the deletion of a range fails, whatever the audio library does,
    when the payload is empty, when the range is empty or reversed, when it
    ends at or before the start of the audio, and when it starts at or after
    the end of the audio. *)
Theorem delete_audio_range_rejects (b : bytes) (start_sec end_sec : Q) :
  (b = [] -> delete_audio_range b start_sec end_sec = None)
  /\ (end_sec <= start_sec -> delete_audio_range b start_sec end_sec = None)
  /\ (end_sec <= 0 -> delete_audio_range b start_sec end_sec = None)
  /\ (forall original,
         from_wav b = Some original ->
         (len_ms original <= py_int (start_sec * 1000))%Z ->
         delete_audio_range b start_sec end_sec = None).
Proof.
  split; [|split; [|split]].
  - intros ->. reflexivity.
  - apply delete_empty_or_reversed.
  - intros Hend. unfold delete_audio_range.
    destruct (negb (truthy (Some b))); [reflexivity|].
    destruct (from_wav b) as [original|]; [|reflexivity].
    assert (Hms : (py_int (end_sec * 1000) <= 0)%Z) by (apply py_int_nonpos; lra).
    destruct (_ <=? _)%Z eqn:E; [reflexivity|].
    apply Z.leb_gt in E.
    destruct (py_int (start_sec * 1000) <? 0)%Z eqn:E1,
             (len_ms original <? py_int (end_sec * 1000))%Z eqn:E2;
      rewrite ?Z.ltb_lt, ?Z.ltb_ge in *; lia.
  - intros original Hparse Hlen. unfold delete_audio_range.
    destruct (negb (truthy (Some b))); [reflexivity|].
    rewrite Hparse.
    destruct (_ <=? _)%Z eqn:E; [reflexivity|].
    apply Z.leb_gt in E.
    destruct (py_int (start_sec * 1000) <? 0)%Z eqn:E1,
             (len_ms original <? py_int (end_sec * 1000))%Z eqn:E2;
      rewrite ?Z.ltb_lt, ?Z.ltb_ge in *; lia.
Qed.

(** X21: the button that deletes a range, run on an empty or reversed range,
    changes neither the audio file nor the session timeline, and adjusts no
    timeline. *)
Theorem delete_button_empty_range_noop (s : session) (del_start del_end : Q) :
  del_end <= del_start ->
  delete_button delete_audio_range s del_start del_end = (s, []).
Proof.
  intros Hrange. unfold delete_button.
  destruct (audio_file s) as [original|]; [|reflexivity].
  rewrite (delete_empty_or_reversed _ _ _ Hrange). reflexivity.
Qed.

Lemma patch_rejects_bad_original (original new_part : bytes) (st et : Q) :
  (length original < 100)%nat \/ startswith original RIFF = false ->
  patch_audio_segment original new_part st et = None.
Proof.
  intros Hbad. unfold patch_audio_segment.
  destruct (negb (truthy (Some original)) || (length original <? 100)%nat) eqn:E1;
    [reflexivity|].
  destruct (negb (truthy (Some new_part)) || (length new_part <? 100)%nat);
    [reflexivity|].
  destruct Hbad as [Hlen | Hsig].
  - apply orb_false_iff in E1 as [_ E1]. apply Nat.ltb_ge in E1. lia.
  - rewrite Hsig. reflexivity.
Qed.

(** X22: the button that records a sentence again never changes a chapter
    whose audio file is shorter than 100 bytes or lacks the RIFF signature,
    whatever the speech service and the audio library give. *)
Theorem patch_button_guards_original
    (wave_read : bytes -> wave_read_result)
    (wave_write : Z -> Z -> Z -> bytes -> option bytes)
    (generate_speech : pystr -> option bytes)
    (s : session) (orig : bytes) (patch_text : pystr) (start_time end_time : Q) :
  audio_file s = Some orig ->
  (length orig < 100)%nat \/ startswith orig RIFF = false ->
  patch_button wave_read wave_write patch_audio_segment generate_speech
    s patch_text start_time end_time = (s, []).
Proof.
  intros Hf Hbad. apply (patch_button_failure _ _ _ _ _ _ _ _ orig Hf).
  intros new_part _. apply patch_rejects_bad_original, Hbad.
Qed.

End SpliceEngineFacts.

Lemma delete_audio_range_rejects_witness :
  delete_audio_range [x01; x02; x03] 0.002 0.001 = None
  /\ delete_audio_range [x01; x02; x03] 0.005 0.009 = None.
Proof.
  destruct (delete_audio_range_rejects (pydub := list_pydub) [x01; x02; x03] 0.002 0.001)
    as (_ & Hrev & _).
  destruct (delete_audio_range_rejects (pydub := list_pydub) [x01; x02; x03] 0.005 0.009)
    as (_ & _ & _ & Hpast).
  split; [apply Hrev; lra|].
  apply (Hpast [x01; x02; x03]); [reflexivity|]. vm_compute. discriminate.
Defined.

Lemma delete_button_empty_range_noop_witness :
  delete_button delete_audio_range abc_session 7 7 = (abc_session, []).
Proof. apply (delete_button_empty_range_noop (pydub := list_pydub)). lra. Defined.

Lemma patch_button_guards_original_witness :
  patch_button raw_reader bare_writer patch_audio_segment raw_speech
    abc_session (pys "B") 5 10 = (abc_session, []).
Proof.
  apply (patch_button_guards_original (pydub := list_pydub) _ _ _ _ [x07]);
    [reflexivity|]. left. simpl. lia.
Defined.

(** With the stand-in library a range inside the audio is cut out. *)
Example delete_audio_range_cuts :
  delete_audio_range [x01; x02; x03; x04; x05] 0.001 0.003 = Some [x01; x04; x05].
Proof. vm_compute. reflexivity. Qed.

(** ** The batch of the second tab *)

Section BatchFacts.

Variable wave_read : bytes -> wave_read_result.
Variable wave_write : Z -> Z -> Z -> bytes -> option bytes.
Variable generate_speech : pystr -> option bytes.
Variable load_text_file : pystr -> pystr.

Lemma batch_stops_at (pre post : list pystr) (f : pystr) :
  truthy (generate_speech (load_text_file f)) = false ->
  forall audio_dir, batch_loop wave_read wave_write generate_speech load_text_file
     (pre ++ f :: post) audio_dir = batch_loop wave_read wave_write generate_speech load_text_file pre audio_dir.
Proof.
  intros Hgen. induction pre as [|a pre IH]; intros audio_dir; cbn [batch_loop app].
  - destruct (generate_speech (load_text_file f)) as [[|c b]|]; [reflexivity | discriminate | reflexivity].
  - destruct (generate_speech (load_text_file a)) as [[|c b]|]; try reflexivity.
    match goal with
    | |- context [add_silence_padding ?r ?w ?x ?d] =>
        destruct (add_silence_padding r w x d) as [[|c' b']|]
    end; apply IH.
Qed.

Lemma batch_passes_over (pre post : list pystr) (f : pystr) :
  truthy (generate_speech (load_text_file f)) = true ->
  truthy (add_silence_padding wave_read wave_write
            (generate_speech (load_text_file f)) 0.5) = false ->
  forall audio_dir, batch_loop wave_read wave_write generate_speech load_text_file
     (pre ++ f :: post) audio_dir = batch_loop wave_read wave_write generate_speech load_text_file
     (pre ++ post) audio_dir.
Proof.
  intros Hgen Hpad. induction pre as [|a pre IH]; intros audio_dir; cbn [batch_loop app].
  - destruct (generate_speech (load_text_file f)) as [[|c b]|]; try discriminate.
    match goal with
    | |- context [add_silence_padding ?r ?w ?x ?d] =>
        destruct (add_silence_padding r w x d) as [[|c' b']|]
    end; [reflexivity | discriminate | reflexivity].
  - destruct (generate_speech (load_text_file a)) as [[|c b]|]; try reflexivity.
    match goal with
    | |- context [add_silence_padding ?r ?w ?x ?d] =>
        destruct (add_silence_padding r w x d) as [[|c' b']|]
    end; apply IH.
Qed.

(** X23: the batch ends at the first script whose speech is not generated:
    the audio folder is left as the scripts before it leave it, and no
    script after it is generated.  A script whose speech is generated but
    whose padding fails is only passed over: the folder is left as if the
    script had not been in the batch. *)
Theorem batch_stops_at_first_failure (pre post : list pystr) (f : pystr)
    (audio_dir : gmap pystr bytes) :
  (truthy (generate_speech (load_text_file f)) = false ->
   batch_loop wave_read wave_write generate_speech load_text_file
     (pre ++ f :: post) audio_dir = batch_loop wave_read wave_write generate_speech load_text_file pre audio_dir)
  /\ (truthy (generate_speech (load_text_file f)) = true ->
      truthy (add_silence_padding wave_read wave_write
            (generate_speech (load_text_file f)) 0.5) = false ->
      batch_loop wave_read wave_write generate_speech load_text_file
     (pre ++ f :: post) audio_dir = batch_loop wave_read wave_write generate_speech load_text_file
     (pre ++ post) audio_dir).
Proof.
  split.
  - intros Hgen. apply batch_stops_at, Hgen.
  - intros Hgen Hpad. apply batch_passes_over; assumption.
Qed.

End BatchFacts.

Lemma batch_stops_at_first_failure_witness :
  batch_loop raw_reader bare_writer one_text_speech (fun f => f)
    ([pys "a"] ++ pys "b" :: [pys "a"]) ∅
  = batch_loop raw_reader bare_writer one_text_speech (fun f => f) [pys "a"] ∅.
Proof.
  apply (proj1 (batch_stops_at_first_failure raw_reader bare_writer one_text_speech
                  (fun f => f) [pys "a"] [pys "a"] (pys "b") ∅)).
  reflexivity.
Defined.

(** ** The audio file that goes with a script file *)

Lemma replace_go_passes (old new : pystr) (h : codepoint) (t pre s : pystr) :
  old = h :: t -> Forall (fun c => c <> h) pre ->
  replace_go old new 0 (pre ++ s) = pre ++ replace_go old new 0 s.
Proof.
  intros -> Hpre. induction Hpre as [|c r Hc Hr IH]; [reflexivity|].
  cbn [app replace_go is_prefix].
  destruct (h =? c)%N eqn:E; [apply N.eqb_eq in E; congruence|].
  cbn [andb]. rewrite IH. reflexivity.
Qed.

Lemma digit_not (h : codepoint) (d : pystr) :
  in_range 0x30 0x39 h = false ->
  Forall (fun c => in_range 0x30 0x39 c = true) d -> Forall (fun c => c <> h) d.
Proof.
  intros Hh Hd. eapply Forall_impl; [exact Hd|]. intros c Hc ->. congruence.
Qed.

(** X24: scripts and audio files are paired by their number: for a number
    written in digits, the audio file of [script_N.txt], and of
    [script_N.json], is [audio_N.wav]. *)
Theorem audio_name_pairs_by_number (digits : pystr) :
  Forall (fun c => in_range 0x30 0x39 c = true) digits ->
  audio_name_of (pys ".txt") (pys "script_" ++ digits ++ pys ".txt")
  = pys "audio_" ++ digits ++ pys ".wav"
  /\ audio_name_of (pys ".json") (pys "script_" ++ digits ++ pys ".json")
     = pys "audio_" ++ digits ++ pys ".wav".
Proof.
  intros Hd.
  pose proof (digit_not 115%N digits eq_refl Hd) as Hs.
  pose proof (digit_not 46%N digits eq_refl Hd) as Hdot.
  assert (Hfirst : forall ext,
             replace_go (pys "script_") (pys "audio_") 0 ext = ext ->
             py_replace (pys "script_") (pys "audio_") (pys "script_" ++ digits ++ ext)
             = pys "audio_" ++ digits ++ ext).
  { intros ext Hext. unfold py_replace.
    change (pys "audio_"
            ++ replace_go (pys "script_") (pys "audio_") 0 (digits ++ ext)
            = pys "audio_" ++ digits ++ ext).
    rewrite (replace_go_passes _ _ 115%N (pys "cript_") digits ext eq_refl Hs).
    change (115%N :: pys "cript_") with (pys "script_"). rewrite Hext.
    reflexivity. }
  assert (Hsecond : forall ext,
             (exists t, ext = 46%N :: t) ->
             replace_go ext (pys ".wav") 0 ext = pys ".wav" ->
             py_replace ext (pys ".wav") (pys "audio_" ++ digits ++ ext)
             = pys "audio_" ++ digits ++ pys ".wav").
  { intros ext [t Ht] Hext. unfold py_replace.
    rewrite app_assoc.
    rewrite (replace_go_passes ext _ 46%N t (pys "audio_" ++ digits) ext Ht).
    - rewrite Hext, <- app_assoc. reflexivity.
    - apply Forall_app. split; [|exact Hdot].
      repeat constructor; discriminate. }
  unfold audio_name_of. split.
  - rewrite (Hfirst (pys ".txt") eq_refl).
    apply Hsecond; [eexists; reflexivity | reflexivity].
  - rewrite (Hfirst (pys ".json") eq_refl).
    apply Hsecond; [eexists; reflexivity | reflexivity].
Qed.

Lemma audio_name_pairs_by_number_witness :
  audio_name_of (pys ".txt") (pys "script_007.txt") = pys "audio_007.wav".
Proof.
  apply (proj1 (audio_name_pairs_by_number (pys "007") ltac:(repeat constructor))).
Defined.
